(** * Universal Document Parser: a shallow embedding of [document_parser.h]
    and [python_bindings.cpp], and the properties of its five format parsers
    and of the dispatching [UniversalDocumentParser]. *)

From Stdlib Require Import ZArith Ascii Lia.
From stdpp Require Import base option list strings pretty gmap.

(** ** Characters and strings

    A [std::string] is a sequence of 8-bit [char]s: the Standard Library's
    [string] over [ascii].  Characters the sources name by an escape are
    given by their decimal code. *)

Definition ch_tab : ascii := "009"%char.
Definition ch_nl : ascii := "010"%char.
Definition ch_space : ascii := " "%char.
Definition ch_dquote : ascii := "034"%char.
Definition ch_backslash : ascii := "\"%char.

(** stdpp keeps [+:+] folded; here it computes on a string that begins
    with a character. *)
#[local] Arguments String.append !_ _ / : simpl nomatch.

(** [s += c]. *)
Definition push_back (s : string) (c : ascii) : string :=
  s +:+ String c EmptyString.

(** [std::string(n, c)] for an in-range count. *)
Fixpoint replicate_char (n : nat) (c : ascii) : string :=
  match n with
  | O => EmptyString
  | S n' => String c (replicate_char n' c)
  end.

(** [std::count(s.begin(), s.end(), c)]; the difference type is a signed
    64-bit integer, and a count is bounded by the length of the string. *)
Fixpoint count (c : ascii) (s : string) : Z :=
  match s with
  | EmptyString => 0
  | String d s' => (if Ascii.eqb d c then 1 else 0) + count c s'
  end%Z.

(** [std::to_string] on an integer: its decimal rendering. *)
Definition to_string (z : Z) : string := pretty z.

(** [::tolower] in the default C locale: only A-Z change. *)
Definition tolower (c : ascii) : ascii :=
  let n := nat_of_ascii c in
  if (65 <=? n) && (n <=? 90) then ascii_of_nat (n + 32) else c.

(** ** Exceptions

    The sources throw [std::runtime_error] themselves; [std::length_error]
    comes from the fill constructor of [std::string]. Both derive from
    [std::exception], whose [what()] is the message. *)

Inductive exception :=
| runtime_error (msg : string)
| length_error (msg : string).

Definition what (e : exception) : string :=
  match e with
  | runtime_error msg => msg
  | length_error msg => msg
  end.

Inductive result (A : Type) :=
| Ok (a : A)
| Throw (e : exception).
Arguments Ok {A} a.
Arguments Throw {A} e.

(** The error monad of code that may throw, with stdpp's [x ← r; k]. *)
Global Instance result_ret : MRet result := fun A a => Ok a.
Global Instance result_bind : MBind result := fun A B k r =>
  match r with
  | Ok a => k a
  | Throw e => Throw e
  end.

(** ** Machine integers *)

(** [int] is 32 bits wide; arithmetic on it is written with its
    two's-complement wrap-around. *)
Definition int_wrap (z : Z) : Z := ((z + 2 ^ 31) mod 2 ^ 32 - 2 ^ 31)%Z.

(** Conversion of an [int] to [size_t] (64 bits, unsigned). *)
Definition to_size_t (z : Z) : Z := (z mod 2 ^ 64)%Z.

(** [std::string::max_size()] of the library the code is built with
    (libstdc++ on a 64-bit target); every implementation has it below
    [2 ^ 63]. *)
Definition string_max_size : Z := (2 ^ 62 - 1)%Z.

(** [std::string(n, c)] where [n] is an [int] expression: the count is
    converted to [size_t], and a count above [max_size()] throws. *)
Definition string_fill (n : Z) (c : ascii) : result string :=
  let sz := to_size_t n in
  if (string_max_size <? sz)%Z
  then Throw (length_error "basic_string::_M_create")
  else Ok (replicate_char (Z.to_nat sz) c).

(** ** Document *)

Record Document := mkDocument {
  content : string;
  metadata : gmap string string;
  format : string;
  pages : list string
}.

(** [Document(text, fmt)]. *)
Definition Document_new (text fmt : string) : Document :=
  {| content := text; metadata := ∅; format := fmt; pages := [] |}.

(** [doc.metadata[k] = v]. *)
Definition set_metadata (k v : string) (doc : Document) : Document :=
  {| content := content doc; metadata := <[k := v]> (metadata doc);
     format := format doc; pages := pages doc |}.

(** [doc.content = text]. *)
Definition set_content (text : string) (doc : Document) : Document :=
  {| content := text; metadata := metadata doc;
     format := format doc; pages := pages doc |}.

(** ** DocumentParser: the helpers of the base class *)

(** The files a parser can open: a name has content or cannot be opened. *)
Definition filesystem := string -> option string.

Module DocumentParser.

Definition readFile (fs : filesystem) (filename : string) : result string :=
  match fs filename with
  | Some buffer => Ok buffer
  | None => Throw (runtime_error ("Cannot open file: " +:+ filename))
  end.

Fixpoint toLowerCase (str : string) : string :=
  match str with
  | EmptyString => EmptyString
  | String c s => String (tolower c) (toLowerCase s)
  end.

(** [s.find_last_of(ch)]: [None] is [npos]. *)
Fixpoint find_last_of (ch : ascii) (s : string) : option nat :=
  match s with
  | EmptyString => None
  | String c s' =>
      match find_last_of ch s' with
      | Some i => Some (S i)
      | None => if Ascii.eqb c ch then Some O else None
      end
  end.

(** [s.substr(pos)] for [pos <= s.size()], which is the only way
    [getFileExtension] calls it. *)
Fixpoint substr (pos : nat) (s : string) : string :=
  match pos, s with
  | O, _ => s
  | S p, String _ s' => substr p s'
  | S _, EmptyString => EmptyString
  end.

Definition getFileExtension (filename : string) : string :=
  match find_last_of "."%char filename with
  | Some dot => toLowerCase (substr (dot + 1) filename)
  | None => EmptyString
  end.

End DocumentParser.
Import DocumentParser.

(** ** TextParser *)

Module TextParser.

Definition canParse (filename : string) : bool :=
  let ext := getFileExtension filename in
  String.eqb ext "txt" || String.eqb ext "text".

(** The part of [parse] after [readFile]. *)
Definition parse_content (content : string) : Document :=
  let doc := Document_new content "text" in
  let doc := set_metadata "encoding" "utf-8" doc in
  set_metadata "lines" (to_string (count ch_nl content + 1)) doc.

Definition parse (fs : filesystem) (filename : string) : result Document :=
  content ← readFile fs filename;
  Ok (parse_content content).

Definition getFormatName : string := "Plain Text".

End TextParser.

(** ** CSVParser *)

Module CSVParser.

Definition canParse (filename : string) : bool :=
  let ext := getFileExtension filename in
  String.eqb ext "csv".

(** The loop of [parseCSVLine] over the characters still to read, with the
    locals [fields], [field] and [inQuotes]; the final [push_back] is at
    the end of the line. *)
Fixpoint parseCSVLine_loop (line : string) (fields : list string)
    (field : string) (inQuotes : bool) : list string :=
  match line with
  | EmptyString => fields ++ [field]
  | String c rest =>
      if Ascii.eqb c ch_dquote then
        parseCSVLine_loop rest fields field (negb inQuotes)
      else if Ascii.eqb c ","%char && negb inQuotes then
        parseCSVLine_loop rest (fields ++ [field]) EmptyString inQuotes
      else
        parseCSVLine_loop rest fields (push_back field c) inQuotes
  end.

Definition parseCSVLine (line : string) : list string :=
  parseCSVLine_loop line [] EmptyString false.

(** The [while (std::getline(stream, line))] loop: [line] is the text
    extracted so far and [got] tells whether a character was extracted. At
    the end of the stream [getline] succeeds only when it extracted
    something. *)
Fixpoint getlines (stream : string) (line : string) (got : bool)
    : list string :=
  match stream with
  | EmptyString => if got then [line] else []
  | String c rest =>
      if Ascii.eqb c ch_nl then line :: getlines rest EmptyString false
      else getlines rest (push_back line c) true
  end.

Definition parseCSV (content : string) : list (list string) :=
  parseCSVLine <$> getlines content EmptyString false.

(** The inner loop of [parse]: the fields of a row, [" | "] before every
    field but the first. *)
Fixpoint format_row (i : nat) (row : list string) : string :=
  match row with
  | [] => EmptyString
  | f :: row' =>
      (if Nat.ltb 0 i then " | " else EmptyString) +:+ f
      +:+ format_row (S i) row'
  end.

Fixpoint format_rows (rows : list (list string)) : string :=
  match rows with
  | [] => EmptyString
  | row :: rows' =>
      format_row 0 row +:+ String ch_nl EmptyString +:+ format_rows rows'
  end.

Definition parse_content (content : string) : Document :=
  let doc := Document_new content "csv" in
  let rows := parseCSV content in
  let doc := set_metadata "rows" (to_string (Z.of_nat (length rows))) doc in
  let doc :=
    match rows with
    | row0 :: _ =>
        set_metadata "columns" (to_string (Z.of_nat (length row0))) doc
    | [] => doc
    end in
  set_content (format_rows rows) doc.

Definition parse (fs : filesystem) (filename : string) : result Document :=
  content ← readFile fs filename;
  Ok (parse_content content).

Definition getFormatName : string := "CSV".

End CSVParser.

(** ** JSONParser *)

Module JSONParser.

Definition canParse (filename : string) : bool :=
  let ext := getFileExtension filename in
  String.eqb ext "json".

(** The locals of [formatJSON]. *)
Record locals := mkLocals {
  result_ : string;
  indent : Z;
  inString : bool
}.

(** One iteration of the loop of [formatJSON] on the character [c];
    [prev] is [json[i-1]], and [None] when [i == 0]. *)
Definition formatJSON_step (prev : option ascii) (c : ascii) (st : locals)
    : result locals :=
  let inString :=
    if Ascii.eqb c ch_dquote &&
       match prev with
       | None => true
       | Some p => negb (Ascii.eqb p ch_backslash)
       end
    then negb (inString st) else inString st in
  let res := result_ st in
  let indent := indent st in
  if negb inString then
    if Ascii.eqb c "{"%char || Ascii.eqb c "["%char then
      let res := push_back res c in
      let res := push_back res ch_nl in
      let indent := int_wrap (indent + 1) in
      pad ← string_fill (int_wrap (indent * 2)) ch_space;
      Ok (mkLocals (res +:+ pad) indent inString)
    else if Ascii.eqb c "}"%char || Ascii.eqb c "]"%char then
      let res := push_back res ch_nl in
      let indent := int_wrap (indent - 1) in
      pad ← string_fill (int_wrap (indent * 2)) ch_space;
      Ok (mkLocals (push_back (res +:+ pad) c) indent inString)
    else if Ascii.eqb c ","%char then
      let res := push_back res c in
      let res := push_back res ch_nl in
      pad ← string_fill (int_wrap (indent * 2)) ch_space;
      Ok (mkLocals (res +:+ pad) indent inString)
    else if negb (Ascii.eqb c ch_space) && negb (Ascii.eqb c ch_tab)
            && negb (Ascii.eqb c ch_nl) then
      Ok (mkLocals (push_back res c) indent inString)
    else
      Ok (mkLocals res indent inString)
  else
    Ok (mkLocals (push_back res c) indent inString).

Fixpoint formatJSON_loop (prev : option ascii) (json : string)
    (st : locals) : result string :=
  match json with
  | EmptyString => Ok (result_ st)
  | String c rest =>
      st' ← formatJSON_step prev c st;
      formatJSON_loop (Some c) rest st'
  end.

Definition formatJSON (json : string) : result string :=
  formatJSON_loop None json (mkLocals EmptyString 0 false).

Definition parse_content (content : string) : result Document :=
  let doc := Document_new content "json" in
  formatted ← formatJSON content;
  let doc := set_content formatted doc in
  let doc := set_metadata "type" "json" doc in
  Ok (set_metadata "size"
        (to_string (Z.of_nat (String.length content))) doc).

Definition parse (fs : filesystem) (filename : string) : result Document :=
  content ← readFile fs filename;
  parse_content content.

Definition getFormatName : string := "JSON".

End JSONParser.

(** ** std::regex

    The patterns of the sources are written in a small fragment of the
    ECMAScript grammar: literal characters, [\s], negated bracket classes,
    [*] and [+] on a single-character atom, one capture group, and [^].
    [std::regex_replace] is modelled on that fragment: a backtracking match
    whose alternatives are listed in the order the matcher tries them, the
    leftmost search of [std::regex_search], and the loop of
    [std::regex_iterator] that [regex_replace] runs. *)

Module Regex.

Inductive atom :=
| Chr (c : ascii)           (* a literal or escaped character *)
| Space                     (* \s *)
| NoneOf (cs : list ascii). (* [^...] *)

(** [std::isspace] in the C locale. *)
Definition isspace (c : ascii) : bool :=
  let n := nat_of_ascii c in
  ((9 <=? n) && (n <=? 13)) || (n =? 32).

Definition atom_matches (a : atom) (c : ascii) : bool :=
  match a with
  | Chr d => Ascii.eqb c d
  | Space => isspace c
  | NoneOf cs => negb (existsb (Ascii.eqb c) cs)
  end.

Inductive regex :=
| Eps
| Bol                          (* ^ *)
| One (a : atom)
| Rep (a : atom) (min : nat)   (* a* is [Rep a 0], a+ is [Rep a 1] *)
| Seq (r1 r2 : regex)
| Group (n : nat) (r : regex). (* the n-th parenthesis *)

Definition sequence (rs : list regex) : regex := foldr Seq Eps rs.

(** A point of a match attempt: the text matched since the attempt
    began, the text ahead, and the captures. *)
Record mstate := mkMstate {
  m_taken : string;
  m_rest : string;
  m_caps : gmap nat string
}.

Definition advance (c : ascii) (rest : string) (st : mstate) : mstate :=
  mkMstate (push_back (m_taken st) c) rest (m_caps st).

Definition is_empty (s : string) : bool :=
  match s with EmptyString => true | _ => false end.

(** Greedy repetition of an atom: the longer alternatives come first. *)
Fixpoint exec_rep (a : atom) (min : nat) (rest : string) (st : mstate)
    : list mstate :=
  match rest with
  | String c rest' =>
      if atom_matches a c then
        exec_rep a (pred min) rest' (advance c rest' st)
        ++ (if min is O then [st] else [])
      else if min is O then [st] else []
  | EmptyString => if min is O then [st] else []
  end.

(** All the ways [r] matches from [st], in the order the backtracking
    matcher tries them. [bol] tells whether the attempt began where [^]
    matches; [^] then matches as long as nothing was taken. *)
Fixpoint exec (r : regex) (bol : bool) (st : mstate) : list mstate :=
  match r with
  | Eps => [st]
  | Bol => if bol && is_empty (m_taken st) then [st] else []
  | One a =>
      match m_rest st with
      | String c rest => if atom_matches a c then [advance c rest st] else []
      | EmptyString => []
      end
  | Rep a min => exec_rep a min (m_rest st) st
  | Seq r1 r2 => st' ← exec r1 bol st; exec r2 bol st'
  | Group n r =>
      (fun st' =>
         mkMstate (m_taken st') (m_rest st')
           (<[n := substr (String.length (m_taken st)) (m_taken st')]>
              (m_caps st')))
      <$> exec r bol st
  end.

(** A match attempt at the head of [s]: the first alternative, or with
    [match_not_null] the first that is not empty. *)
Definition match_here (r : regex) (not_null bol : bool) (s : string)
    : option mstate :=
  head (filter (fun st => negb not_null || negb (is_empty (m_taken st)))
          (exec r bol (mkMstate EmptyString s ∅))).

(** [std::match_results]: the text before the match, and the match (its
    text, its captures and the text after it). *)
Record match_results := mkMatch {
  mr_prefix : string;
  mr_found : mstate
}.
Definition mr_matched (m : match_results) : string := m_taken (mr_found m).
Definition mr_suffix (m : match_results) : string := m_rest (mr_found m).

(** [std::regex_search]: the leftmost position with a match; [pre] is the
    text already passed over, and [^] can match at the first position
    only. *)
Fixpoint regex_search (r : regex) (bol : bool) (s : string) (pre : string)
    : option match_results :=
  match match_here r false bol s with
  | Some st => Some (mkMatch pre st)
  | None =>
      match s with
      | EmptyString => None
      | String c s' => regex_search r false s' (push_back pre c)
      end
  end.

(** The replacement text: literal characters and [$n]. *)
Inductive fmt_item :=
| Lit (c : ascii)
| Sub (n : nat).

Fixpoint format_ (fmt : list fmt_item) (m : match_results) : string :=
  match fmt with
  | [] => EmptyString
  | Lit c :: fmt' => String c (format_ fmt' m)
  | Sub n :: fmt' =>
      default EmptyString (m_caps (mr_found m) !! n) +:+ format_ fmt' m
  end.

(** The increment of [std::regex_iterator] from the match [m], where
    [prev_avail] tells whether the iterator has set [match_prev_avail].
    After an empty match that is not at the end, it first tries a
    non-empty match at the same place, with its flags as they are; else
    it moves one character on. Every search but that one sets
    [match_prev_avail], with which [^] does not match. The prefix of the
    new match begins where [m] ended. *)
Definition increment (r : regex) (m : match_results) (prev_avail : bool)
    : option (match_results * bool) :=
  let start := mr_suffix m in
  if is_empty (mr_matched m) then
    match start with
    | EmptyString => None
    | String c start' =>
        match match_here r true (negb prev_avail) start with
        | Some st => Some (mkMatch EmptyString st, prev_avail)
        | None =>
            m' ← regex_search r false start' (String c EmptyString);
            Some (m', true)
        end
    end
  else
    m' ← regex_search r false start EmptyString;
    Some (m', true).

(** The loop of [std::regex_replace] at the match [m]: the text before
    the match is copied and the match is replaced; after the last match
    the text after it is copied. [fuel] bounds the number of increments. *)
Fixpoint replace_loop (fuel : nat) (r : regex) (fmt : list fmt_item)
    (m : match_results) (prev_avail : bool) : string :=
  mr_prefix m +:+ format_ fmt m +:+
  match fuel with
  | O => mr_suffix m
  | S fuel' =>
      match increment r m prev_avail with
      | None => mr_suffix m
      | Some (m', prev_avail') => replace_loop fuel' r fmt m' prev_avail'
      end
  end.

(** [std::regex_replace(s, r, fmt)]. Each increment takes a character or
    follows an empty match, so the iterator is incremented at most
    [2 * s.size() + 1] times. *)
Definition regex_replace (s : string) (r : regex) (fmt : list fmt_item)
    : string :=
  match regex_search r true s EmptyString with
  | None => s
  | Some m => replace_loop (2 * String.length s + 1) r fmt m false
  end.

End Regex.
Import Regex.

(** ** XMLParser *)

Module XMLParser.

Definition canParse (filename : string) : bool :=
  let ext := getFileExtension filename in
  String.eqb ext "xml" || String.eqb ext "html" || String.eqb ext "htm".

(** The range-for loop of [extractTextFromXML]. *)
Fixpoint scan (xml : string) (result : string) (inTag : bool) : string :=
  match xml with
  | EmptyString => result
  | String c rest =>
      if Ascii.eqb c "<"%char then scan rest result true
      else if Ascii.eqb c ">"%char then
        scan rest (push_back result ch_space) false
      else if negb inTag then scan rest (push_back result c) inTag
      else scan rest result inTag
  end.

(** The pattern [\s+]. *)
Definition multiSpace : regex := sequence [Rep Space 1].

Definition extractTextFromXML (xml : string) : string :=
  let result := scan xml EmptyString false in
  regex_replace result multiSpace [Lit ch_space].

Definition parse_content (ext content : string) : Document :=
  let doc := Document_new content ext in
  let textContent := extractTextFromXML content in
  let doc := set_content textContent doc in
  let doc := set_metadata "format" ext doc in
  set_metadata "has_tags" "true" doc.

Definition parse (fs : filesystem) (filename : string) : result Document :=
  content ← readFile fs filename;
  Ok (parse_content (getFileExtension filename) content).

Definition getFormatName : string := "XML/HTML".

End XMLParser.

(** ** MarkdownParser *)

Module MarkdownParser.

Definition canParse (filename : string) : bool :=
  let ext := getFileExtension filename in
  String.eqb ext "md" || String.eqb ext "markdown".

(** [^#+\s*] *)
Definition re_header : regex :=
  sequence [Bol; Rep (Chr "#") 1; Rep Space 0].

(** [\*\*([^*]+)\*\*] *)
Definition re_bold : regex :=
  sequence [One (Chr "*"); One (Chr "*");
            Group 1 (Rep (NoneOf ["*"%char]) 1);
            One (Chr "*"); One (Chr "*")].

(** [\*([^*]+)\*] *)
Definition re_italic : regex :=
  sequence [One (Chr "*"); Group 1 (Rep (NoneOf ["*"%char]) 1);
            One (Chr "*")].

(** [\[([^\]]+)\]\([^)]+\)] *)
Definition re_link : regex :=
  sequence [One (Chr "["); Group 1 (Rep (NoneOf ["]"%char]) 1);
            One (Chr "]"); One (Chr "("); Rep (NoneOf [")"%char]) 1;
            One (Chr ")")].

(** Three backticks, any run without a backtick, three backticks. *)
Definition re_fence : regex :=
  sequence [One (Chr "`"); One (Chr "`"); One (Chr "`");
            Rep (NoneOf ["`"%char]) 0;
            One (Chr "`"); One (Chr "`"); One (Chr "`")].

(** A backtick, a captured non-empty run without a backtick, a
    backtick. *)
Definition re_code : regex :=
  sequence [One (Chr "`"); Group 1 (Rep (NoneOf ["`"%char]) 1);
            One (Chr "`")].

Definition convertMarkdownToText (md : string) : string :=
  let result := md in
  (* Remove headers *)
  let result := regex_replace result re_header [] in
  (* Remove bold/italic *)
  let result := regex_replace result re_bold [Sub 1] in
  let result := regex_replace result re_italic [Sub 1] in
  (* Remove links *)
  let result := regex_replace result re_link [Sub 1] in
  (* Remove code blocks *)
  let result := regex_replace result re_fence [] in
  let result := regex_replace result re_code [Sub 1] in
  result.

Definition parse_content (content : string) : Document :=
  let doc := Document_new content "markdown" in
  let converted := convertMarkdownToText content in
  let doc := set_content converted doc in
  set_metadata "format" "markdown" doc.

Definition parse (fs : filesystem) (filename : string) : result Document :=
  content ← readFile fs filename;
  Ok (parse_content content).

Definition getFormatName : string := "Markdown".

End MarkdownParser.

(** ** UniversalDocumentParser *)

(** The concrete classes behind the [DocumentParser] interface. *)
Inductive parser_class :=
| Text | CSV | JSON | XML | Markdown.

Definition canParse (p : parser_class) (filename : string) : bool :=
  match p with
  | Text => TextParser.canParse filename
  | CSV => CSVParser.canParse filename
  | JSON => JSONParser.canParse filename
  | XML => XMLParser.canParse filename
  | Markdown => MarkdownParser.canParse filename
  end.

Definition parse (p : parser_class) (fs : filesystem) (filename : string)
    : result Document :=
  match p with
  | Text => TextParser.parse fs filename
  | CSV => CSVParser.parse fs filename
  | JSON => JSONParser.parse fs filename
  | XML => XMLParser.parse fs filename
  | Markdown => MarkdownParser.parse fs filename
  end.

Definition getFormatName (p : parser_class) : string :=
  match p with
  | Text => TextParser.getFormatName
  | CSV => CSVParser.getFormatName
  | JSON => JSONParser.getFormatName
  | XML => XMLParser.getFormatName
  | Markdown => MarkdownParser.getFormatName
  end.

Module UniversalDocumentParser.

(** The constructor's [push_back]s, in order. *)
Definition parsers : list parser_class := [Text; CSV; JSON; XML; Markdown].

(** The loop of [parseDocument] over the parsers still to try. *)
Fixpoint parseDocument_loop (ps : list parser_class) (fs : filesystem)
    (filename : string) : result Document :=
  match ps with
  | [] => Throw (runtime_error ("No suitable parser found for: " +:+ filename))
  | parser :: ps' =>
      if canParse parser filename then
        match parse parser fs filename with
        | Ok doc =>
            let doc := set_metadata "parser" (getFormatName parser) doc in
            let doc := set_metadata "filename" filename doc in
            Ok doc
        | Throw e =>
            Throw (runtime_error
                     ("Failed to parse " +:+ filename +:+ ": " +:+ what e))
        end
      else parseDocument_loop ps' fs filename
  end.

Definition parseDocument (fs : filesystem) (filename : string)
    : result Document :=
  parseDocument_loop parsers fs filename.

Definition getSupportedFormats : list string := getFormatName <$> parsers.

Fixpoint canParseFile_loop (ps : list parser_class) (filename : string)
    : bool :=
  match ps with
  | [] => false
  | parser :: ps' =>
      if canParse parser filename then true
      else canParseFile_loop ps' filename
  end.

Definition canParseFile (filename : string) : bool :=
  canParseFile_loop parsers filename.

End UniversalDocumentParser.
Import UniversalDocumentParser.

(** ** PyDocumentParser (python_bindings.cpp) *)

(** The [py::dict] both methods build has exactly these four keys. *)
Record py_dict := mkPyDict {
  py_content : string;
  py_format : string;
  py_metadata : gmap string string;
  py_pages : list string
}.

Module PyDocumentParser.

Definition parse_document (fs : filesystem) (filename : string)
    : result py_dict :=
  match parseDocument fs filename with
  | Ok doc =>
      Ok (mkPyDict (content doc) (format doc) (metadata doc) (pages doc))
  | Throw e => Throw (runtime_error (what e))
  end.

Definition can_parse (filename : string) : bool := canParseFile filename.

Definition parse_text_content (content_ format_ : string) : py_dict :=
  let doc := Document_new content_ format_ in
  let doc := set_metadata "type" "direct_content" doc in
  mkPyDict (content doc) (format doc) (metadata doc) (pages doc).

End PyDocumentParser.

(** * Properties *)

(** ** Vocabulary of the statements *)

(** The characters of a string. *)
Fixpoint chars (s : string) : list ascii :=
  match s with
  | EmptyString => []
  | String c s' => c :: chars s'
  end.

(** The parser at which the loops of [parseDocument] and [canParseFile]
    stop: the first registered parser that can parse the file name. *)
Definition detect (filename : string) : option parser_class :=
  head (filter (fun p => canParse p filename = true) parsers).

(** The extensions each parser recognises. *)
Definition extensions (p : parser_class) : list string :=
  match p with
  | Text => ["txt"; "text"]
  | CSV => ["csv"]
  | JSON => ["json"]
  | XML => ["xml"; "html"; "htm"]
  | Markdown => ["md"; "markdown"]
  end.

(** [sep] between the fields of a row. *)
Fixpoint join (sep : string) (fields : list string) : string :=
  match fields with
  | [] => EmptyString
  | [f] => f
  | f :: fields' => f +:+ sep +:+ join sep fields'
  end.

(** Tag stripping, in the words of the specification: [<] enters the tag
    state and is dropped, [>] leaves it and gives a space, a character
    outside a tag is kept and one inside is dropped. *)
Fixpoint strip_tags (inTag : bool) (s : string) : string :=
  match s with
  | EmptyString => EmptyString
  | String c s' =>
      if Ascii.eqb c "<"%char then strip_tags true s'
      else if Ascii.eqb c ">"%char then String ch_space (strip_tags false s')
      else if inTag then strip_tags inTag s'
      else String c (strip_tags inTag s')
  end.

(** Every maximal run of whitespace becomes one space; [in_run] tells
    whether the previous character was whitespace. *)
Fixpoint collapse_whitespace (in_run : bool) (s : string) : string :=
  match s with
  | EmptyString => EmptyString
  | String c s' =>
      if isspace c then
        if in_run then collapse_whitespace true s'
        else String ch_space (collapse_whitespace true s')
      else String c (collapse_whitespace false s')
  end.

(** The longest prefix of [s] whose characters satisfy [p], taken off. *)
Fixpoint drop_while (p : ascii -> bool) (s : string) : string :=
  match s with
  | EmptyString => EmptyString
  | String c s' => if p c then drop_while p s' else s
  end.

(** The longest prefix of [s] whose characters satisfy [p]. *)
Fixpoint take_while (p : ascii -> bool) (s : string) : string :=
  match s with
  | EmptyString => EmptyString
  | String c s' => if p c then String c (take_while p s') else EmptyString
  end.

Definition nonspace (c : ascii) : bool := negb (isspace c).

Definition is_hash (c : ascii) : bool := Ascii.eqb c "#".

(** A leading run of [#] and the whitespace after it, taken off the
    content; a content that does not begin with [#] is left as it is. *)
Definition strip_header (md : string) : string :=
  match md with
  | String c _ =>
      if is_hash c then drop_while isspace (drop_while is_hash md) else md
  | EmptyString => md
  end.

(** [s] without the prefix [p], when it begins with [p]. *)
Fixpoint strip_prefix (p s : string) : option string :=
  match p, s with
  | EmptyString, _ => Some s
  | String c p', String d s' =>
      if Ascii.eqb d c then strip_prefix p' s' else None
  | String _ _, EmptyString => None
  end.

(** An occurrence of wrapped text at the head of [s]: [opening], then the
    text [x], the longest run of characters other than [stop], of [min]
    characters at least, then [closing]. It gives [x] and what comes after
    the occurrence. *)
Definition wrapped (opening : string) (stop : ascii) (min : nat)
    (closing : string) (s : string) : option (string * string) :=
  s1 ← strip_prefix opening s;
  let x := take_while (fun c => negb (Ascii.eqb c stop)) s1 in
  if min <=? String.length x then
    rest ← strip_prefix closing (drop_while (fun c => negb (Ascii.eqb c stop)) s1);
    Some (x, rest)
  else None.

(** The occurrences the five substitutions of the Markdown parser look
    for, each with its replacement and the text after it. *)
Definition bold_at (s : string) : option (string * string) :=
  wrapped "**" "*" 1 "**" s.
Definition italic_at (s : string) : option (string * string) :=
  wrapped "*" "*" 1 "*" s.
Definition link_at (s : string) : option (string * string) :=
  '(x, s1) ← wrapped "[" "]" 1 "](" s;
  '(_, rest) ← wrapped EmptyString ")" 1 ")" s1;
  Some (x, rest).
Definition fence_at (s : string) : option (string * string) :=
  '(_, rest) ← wrapped "```" "`" 0 "```" s;
  Some (EmptyString, rest).
Definition code_at (s : string) : option (string * string) :=
  wrapped "`" "`" 1 "`" s.

(** [rewrites occ s t]: [t] is [s] with every occurrence replaced, found
    from left to right and not overlapping: at an occurrence its
    replacement is put out and the scan goes on after it; elsewhere a
    character is copied. *)
Inductive rewrites (occ : string -> option (string * string))
    : string -> string -> Prop :=
| rewrites_end :
    occ EmptyString = None -> rewrites occ EmptyString EmptyString
| rewrites_occurrence s out rest t :
    occ s = Some (out, rest) -> rewrites occ rest t ->
    rewrites occ s (out +:+ t)
| rewrites_copy c s t :
    occ (String c s) = None -> rewrites occ s t ->
    rewrites occ (String c s) (String c t).

(** ** Vocabulary of the proofs *)

Definition quote_free (s : string) : Prop := ch_dquote ∉ chars s.

(** [parseDocument] parses with the detected parser and stamps the
    result, or wraps what the parser throws; with no parser detected it
    throws. *)
Definition parseDocument_with (fs : filesystem) (filename : string)
    (selected : option parser_class) : result Document :=
  match selected with
  | None =>
      Throw (runtime_error ("No suitable parser found for: " +:+ filename))
  | Some parser =>
      match parse parser fs filename with
      | Ok doc =>
          Ok (set_metadata "filename" filename
                (set_metadata "parser" (getFormatName parser) doc))
      | Throw e =>
          Throw (runtime_error
                   ("Failed to parse " +:+ filename +:+ ": " +:+ what e))
      end
  end.

(** The state after [st] took [x] and has [rest] ahead. *)
Definition took (x rest : string) (st : mstate) : mstate :=
  mkMstate (m_taken st +:+ x) rest (m_caps st).

(** [h] is the first alternative of [r] from [st]. *)
Definition first_alt (r : regex) (bol : bool) (st h : mstate) : Prop :=
  exists tail, exec r bol st = h :: tail.

(** [h] continues [st]: it took some text that was ahead of [st]. *)
Definition continues (st h : mstate) : Prop :=
  exists x, m_taken h = m_taken st +:+ x /\ m_rest st = x +:+ m_rest h.

(** What is left to do after the match [m]. *)
Definition work (m : match_results) : nat :=
  2 * String.length (mr_suffix m)
  + (if is_empty (mr_matched m) then 0 else 1).

(** The state [h] with the text it took after [st] as capture [n]. *)
Definition captured (n : nat) (st h : mstate) : mstate :=
  mkMstate (m_taken h) (m_rest h)
    (<[n := substr (String.length (m_taken st)) (m_taken h)]> (m_caps h)).

(** The patterns without [^]. *)
Fixpoint bol_free (r : regex) : bool :=
  match r with
  | Bol => false
  | Seq r1 r2 => bol_free r1 && bol_free r2
  | Group _ r' => bol_free r'
  | Eps | One _ | Rep _ _ => true
  end.

(** [regex_replace] from any state of the flags. *)
Definition regex_replace_from (r : regex) (fmt : list fmt_item)
    (bol prev_avail : bool) (s : string) : string :=
  match regex_search r bol s EmptyString with
  | None => s
  | Some m =>
      replace_loop (2 * String.length s + 1) r fmt m prev_avail
  end.

(** The pattern [r] with the replacement [fmt] finds the occurrences
    [occ]: a match attempt succeeds exactly at an occurrence, the match
    is not empty, and it gives the replacement and the text after the
    occurrence. *)
Definition finds (r : regex) (fmt : list fmt_item)
    (occ : string -> option (string * string)) : Prop :=
  forall s,
    match match_here r false false s with
    | Some h =>
        m_taken h <> EmptyString /\
        occ s = Some (format_ fmt (mkMatch EmptyString h), m_rest h)
    | None => occ s = None
    end.

(** ** The examples of the specification *)

Definition csv_example : string :=
  "a,b," +:+ String ch_dquote ("c,d" +:+ String ch_dquote
    (String ch_nl "1,2,3")).

Definition text_example : string :=
  "a" +:+ String ch_nl ("b" +:+ String ch_nl EmptyString).

(** The example of the specification for the JSON parser, an object with a
    number and an array, is re-indented. *)
Definition json_example : string :=
  "{" +:+ String ch_dquote ("a" +:+ String ch_dquote (":1," +:+
    String ch_dquote ("b" +:+ String ch_dquote ":[1,2]}"))).

Definition xml_example : string := "<p>Hello <b>World</b></p>".

Definition md_example : string :=
  "# Title" +:+ String ch_nl "**bold** and *em* and [link](url) and `code`".

Definition md_second_line_header : string :=
  "Title" +:+ String ch_nl "## Section".

(** ** Vocabulary of the further properties *)

(** [s] without the characters that satisfy [p]. *)
Fixpoint remove_if (p : ascii -> bool) (s : string) : string :=
  match s with
  | EmptyString => EmptyString
  | String c s' => if p c then remove_if p s' else String c (remove_if p s')
  end.

Definition is_dquote (c : ascii) : bool := Ascii.eqb c ch_dquote.

(** Whether [s] ends in a line that no newline ends; [open] tells whether
    such a line has begun before [s]. *)
Fixpoint unterminated (open : bool) (s : string) : bool :=
  match s with
  | EmptyString => open
  | String c s' => unterminated (negb (Ascii.eqb c ch_nl)) s'
  end.

(** Lines, each with a newline after it. *)
Definition unlines (lines : list string) : string :=
  foldr (fun line out => line +:+ String ch_nl out) EmptyString lines.

(** The string state of [formatJSON] after the character [c]: a double
    quote that no backslash precedes toggles it. *)
Definition string_state (inString : bool) (prev : option ascii) (c : ascii)
    : bool :=
  if Ascii.eqb c ch_dquote &&
     match prev with
     | None => true
     | Some p => negb (Ascii.eqb p ch_backslash)
     end
  then negb inString else inString.

(** The number of open brackets after the character [c], read in the
    string state [inString] with [depth] brackets open; [None] when [c]
    closes a bracket and none is open. *)
Definition depth_after (depth : nat) (inString : bool) (c : ascii)
    : option nat :=
  if inString then Some depth
  else if Ascii.eqb c "{" || Ascii.eqb c "[" then Some (S depth)
  else if Ascii.eqb c "}" || Ascii.eqb c "]" then
    match depth with
    | O => None
    | S depth' => Some depth'
    end
  else Some depth.

(** Whether [json] closes, outside a string, a bracket that is not open. *)
Fixpoint closes_unopened (depth : nat) (inString : bool)
    (prev : option ascii) (json : string) : bool :=
  match json with
  | EmptyString => false
  | String c rest =>
      let inString := string_state inString prev c in
      match depth_after depth inString c with
      | None => true
      | Some depth' => closes_unopened depth' inString (Some c) rest
      end
  end.

(** The characters [formatJSON] drops outside a string. *)
Definition is_json_space (c : ascii) : bool :=
  Ascii.eqb c ch_space || Ascii.eqb c ch_tab || Ascii.eqb c ch_nl.

(** Whether every whitespace character of [s] is a space that no
    whitespace precedes; [after_space] tells whether whitespace comes just
    before [s]. *)
Fixpoint single_spaced (after_space : bool) (s : string) : bool :=
  match s with
  | EmptyString => true
  | String c s' =>
      if isspace c then
        Ascii.eqb c ch_space && negb after_space && single_spaced true s'
      else single_spaced false s'
  end.

(** The occurrences [occ] finds are replaced by a part of themselves: an
    occurrence is its replacement with some text before it and some text
    after it. *)
Definition only_deletes (occ : string -> option (string * string)) : Prop :=
  forall s out rest,
    occ s = Some (out, rest) ->
    exists before after, s = before +:+ out +:+ after +:+ rest.

#[local] Arguments isspace : simpl never.
#[local] Arguments nonspace : simpl never.

(** Membership of a given element in a given list. *)
Ltac elem_of_list :=
  repeat first [apply list_elem_of_here | apply list_elem_of_further].

(** ** Strings *)

Section strings.

Implicit Types s t u : string.

Lemma append_nil_r s : s +:+ EmptyString = s.
Proof. induction s as [|c s IH]; simpl; [done | by rewrite IH]. Qed.

Lemma append_assoc s t u : (s +:+ t) +:+ u = s +:+ (t +:+ u).
Proof. induction s as [|c s IH]; simpl; [done | by rewrite IH]. Qed.

Lemma push_back_append s t c : push_back s c +:+ t = s +:+ String c t.
Proof. unfold push_back. by rewrite append_assoc. Qed.

Lemma length_append s t :
  String.length (s +:+ t) = String.length s + String.length t.
Proof. induction s as [|c s IH]; simpl; [done | by rewrite IH]. Qed.

Lemma chars_append s t : chars (s +:+ t) = chars s ++ chars t.
Proof. induction s as [|c s IH]; simpl; [done | by rewrite IH]. Qed.

Lemma chars_push_back s c : chars (push_back s c) = chars s ++ [c].
Proof. apply chars_append. Qed.

Lemma substr_length_append s t : substr (String.length s) (s +:+ t) = t.
Proof. induction s as [|c s IH]; simpl; [by destruct t | done]. Qed.

End strings.

(** ** TextParser *)

Lemma count_filter (c : ascii) (s : string) :
  count c s = Z.of_nat (length (filter (fun d => d = c) (chars s))).
Proof.
  induction s as [|d s IH]; simpl; [done|].
  rewrite filter_cons. destruct (Ascii.eqb_spec d c) as [->|Hne].
  - rewrite decide_True by done. simpl length. lia.
  - rewrite decide_False by done. lia.
Qed.

(** ** CSVParser *)

Section csv.

Lemma quote_free_append s t :
  quote_free s -> quote_free t -> quote_free (s +:+ t).
Proof.
  unfold quote_free. rewrite chars_append, elem_of_app. tauto.
Qed.

Lemma parseCSVLine_loop_quote_free line : forall fields field inQuotes,
  Forall quote_free fields -> quote_free field ->
  Forall quote_free (CSVParser.parseCSVLine_loop line fields field inQuotes).
Proof.
  induction line as [|c line IH]; intros fields field inQuotes Hfs Hf; simpl.
  - apply Forall_app; split; [done | by apply Forall_singleton].
  - destruct (Ascii.eqb_spec c ch_dquote) as [->|Hc]; [by apply IH|].
    destruct (Ascii.eqb c "," && negb inQuotes).
    + apply IH; [|by intros ?%elem_of_nil].
      apply Forall_app; split; [done | by apply Forall_singleton].
    + apply IH; [done|].
      unfold quote_free. rewrite chars_push_back, elem_of_app.
      intros [?|?%list_elem_of_singleton]; [by apply Hf | by apply Hc].
Qed.

Lemma parseCSVLine_quote_free line :
  Forall quote_free (CSVParser.parseCSVLine line).
Proof.
  apply parseCSVLine_loop_quote_free; [done | by intros ?%elem_of_nil].
Qed.

Lemma format_row_quote_free row : forall i,
  Forall quote_free row -> quote_free (CSVParser.format_row i row).
Proof.
  induction row as [|f row IH]; intros i Hrow; simpl.
  - by intros ?%elem_of_nil.
  - inversion Hrow; subst. apply quote_free_append; [|apply quote_free_append].
    + destruct (Nat.ltb 0 i); unfold quote_free; simpl; [|by intros ?%elem_of_nil].
      rewrite !elem_of_cons, elem_of_nil. unfold ch_dquote.
      intros [?|[?|[?|?]]]; done.
    + done.
    + by apply IH.
Qed.

Lemma format_rows_quote_free rows :
  Forall (Forall quote_free) rows -> quote_free (CSVParser.format_rows rows).
Proof.
  induction rows as [|row rows IH]; intros Hrows; simpl.
  - by intros ?%elem_of_nil.
  - inversion Hrows; subst.
    apply quote_free_append; [by apply format_row_quote_free|].
    unfold quote_free. simpl. rewrite elem_of_cons.
    intros [?|?]; [done | by apply IH].
Qed.

Lemma format_row_join row : forall i,
  CSVParser.format_row i row =
  (if Nat.ltb 0 i then
     match row with [] => EmptyString | _ => " | " end
   else EmptyString) +:+ join " | " row.
Proof.
  induction row as [|f row IH]; intros i; simpl.
  - by destruct (Nat.ltb 0 i).
  - rewrite IH. simpl. destruct row as [|g row]; simpl.
    + by rewrite append_nil_r.
    + by rewrite <-!append_assoc.
Qed.

Lemma format_rows_join rows :
  CSVParser.format_rows rows =
  foldr (fun row out => join " | " row +:+ String ch_nl out) EmptyString rows.
Proof.
  induction rows as [|row rows IH]; simpl; [done|].
  by rewrite IH, format_row_join.
Qed.

End csv.

(** ** JSONParser *)

Section json.

(** A negative [int] converts to a [size_t] above [2 ^ 63], which no
    [max_size()] reaches. *)
Lemma to_size_t_negative (n : Z) :
  (- 2 ^ 31 <= n < 0)%Z -> (2 ^ 63 < to_size_t n)%Z.
Proof.
  intros H. unfold to_size_t.
  rewrite <-(Z_mod_plus_full n 1 (2 ^ 64)), Z.mod_small; lia.
Qed.

Lemma string_fill_negative (n : Z) (c : ascii) :
  (- 2 ^ 31 <= n < 0)%Z ->
  string_fill n c = Throw (length_error "basic_string::_M_create").
Proof.
  intros H%to_size_t_negative. unfold string_fill, string_max_size.
  destruct (Z.ltb_spec (2 ^ 62 - 1) (to_size_t n)); [done | lia].
Qed.

End json.

(** ** Detection *)

Section detection.

Lemma find_last_of_absent ch s : ch ∉ chars s -> find_last_of ch s = None.
Proof.
  induction s as [|c s IH]; simpl; [done|].
  rewrite not_elem_of_cons. intros [Hne Hs]. rewrite (IH Hs).
  destruct (Ascii.eqb_spec c ch); congruence.
Qed.

Lemma find_last_of_last ch pre suf :
  ch ∉ chars suf ->
  find_last_of ch (pre +:+ String ch suf) = Some (String.length pre).
Proof.
  intros Hsuf. induction pre as [|c pre IH]; simpl.
  - by rewrite (find_last_of_absent _ _ Hsuf), Ascii.eqb_refl.
  - by rewrite IH.
Qed.

Lemma find_last_of_lt ch s i :
  find_last_of ch s = Some i -> i < String.length s.
Proof.
  revert i. induction s as [|c s IH]; intros i; simpl; [done|].
  destruct (find_last_of ch s) as [j|].
  - intros [= <-]. specialize (IH j eq_refl). lia.
  - destruct (Ascii.eqb c ch); intros [= <-]. lia.
Qed.

Lemma getFileExtension_no_dot filename :
  "."%char ∉ chars filename -> getFileExtension filename = EmptyString.
Proof.
  intros H. unfold getFileExtension. by rewrite find_last_of_absent.
Qed.

Lemma getFileExtension_last_dot pre suf :
  "."%char ∉ chars suf ->
  getFileExtension (pre +:+ String "." suf) = toLowerCase suf.
Proof.
  intros H. unfold getFileExtension. rewrite find_last_of_last by done.
  replace (String.length pre + 1) with (String.length (push_back pre "."))
    by (unfold push_back; rewrite length_append; done).
  by rewrite <-(push_back_append pre suf), substr_length_append.
Qed.

Lemma canParse_extensions p filename :
  canParse p filename = true <-> getFileExtension filename ∈ extensions p.
Proof.
  destruct p; simpl;
    unfold TextParser.canParse, CSVParser.canParse, JSONParser.canParse,
      XMLParser.canParse, MarkdownParser.canParse;
    rewrite ?orb_true_iff, ?String.eqb_eq, ?elem_of_cons, ?elem_of_nil;
    tauto.
Qed.

Lemma extensions_disjoint p q ext :
  ext ∈ extensions p -> ext ∈ extensions q -> p = q.
Proof.
  destruct p, q; simpl; rewrite ?elem_of_cons, ?elem_of_nil;
    try done; intros Hp Hq; destruct_or!; congruence.
Qed.

Lemma elem_of_parsers p : p ∈ parsers.
Proof. unfold parsers. destruct p; elem_of_list. Qed.

(** The first element that satisfies a predicate which holds of one
    element at most. *)
Lemma head_filter_unique {A} (P : A -> Prop) `{!forall x, Decision (P x)}
    (l : list A) (x : A) :
  (forall y z, P y -> P z -> y = z) ->
  head (filter P l) = Some x <-> P x /\ x ∈ l.
Proof.
  intros Huniq. induction l as [|y l IH]; simpl.
  - rewrite elem_of_nil. split; [done | tauto].
  - rewrite filter_cons, elem_of_cons.
    destruct (decide (P y)) as [Hy|Hy]; simpl.
    + split; [intros [= ->]; auto|].
      intros [Hx _]. f_equal. by apply Huniq.
    + rewrite IH. split; [tauto|]. intros [Hx [->|Hl]]; tauto.
Qed.

Lemma detect_canParse p filename :
  detect filename = Some p <-> canParse p filename = true.
Proof.
  unfold detect. rewrite head_filter_unique.
  - pose proof (elem_of_parsers p). tauto.
  - intros q q'. rewrite !canParse_extensions. apply extensions_disjoint.
Qed.

Lemma detect_extensions p filename :
  detect filename = Some p <-> getFileExtension filename ∈ extensions p.
Proof. by rewrite detect_canParse, canParse_extensions. Qed.

Lemma canParseFile_loop_filter ps filename :
  canParseFile_loop ps filename = true <->
  is_Some (head (filter (fun p => canParse p filename = true) ps)).
Proof.
  induction ps as [|p ps IH]; simpl.
  - split; [done | by intros [? ?]].
  - rewrite filter_cons. destruct (canParse p filename) eqn:Hp.
    + rewrite decide_True by done. simpl. split; [eauto | done].
    + rewrite decide_False by done. apply IH.
Qed.

Lemma canParseFile_detect filename :
  canParseFile filename = true <-> is_Some (detect filename).
Proof. apply canParseFile_loop_filter. Qed.

Lemma parseDocument_loop_filter ps fs filename :
  parseDocument_loop ps fs filename =
  parseDocument_with fs filename
    (head (filter (fun p => canParse p filename = true) ps)).
Proof.
  induction ps as [|p ps IH]; simpl; [done|].
  rewrite filter_cons. destruct (canParse p filename) eqn:Hp.
  - by rewrite decide_True by done.
  - by rewrite decide_False by done.
Qed.

Lemma parseDocument_detect fs filename :
  parseDocument fs filename =
  parseDocument_with fs filename (detect filename).
Proof. apply parseDocument_loop_filter. Qed.

End detection.

(** ** The matcher *)

Section matcher.

Implicit Types (r : regex) (a : atom) (st : mstate) (s : string).

Lemma take_drop_while p s : take_while p s +:+ drop_while p s = s.
Proof.
  induction s as [|c s IH]; simpl; [done|].
  destruct (p c); simpl; [by rewrite IH | done].
Qed.

Lemma length_drop_while p s :
  String.length (drop_while p s) <= String.length s.
Proof.
  induction s as [|c s IH]; simpl; [done|]. destruct (p c); simpl; lia.
Qed.

Lemma took_advance c x rest rest' st :
  took x rest (advance c rest' st) = took (String c x) rest st.
Proof. unfold took, advance. simpl. by rewrite push_back_append. Qed.

Lemma took_nothing st s : m_rest st = s -> took EmptyString s st = st.
Proof.
  intros <-. destruct st. unfold took. simpl. by rewrite append_nil_r.
Qed.

(** The greedy repetition takes the longest run first. *)
Lemma exec_rep_first a s : forall min st,
  m_rest st = s ->
  min <= String.length (take_while (atom_matches a) s) ->
  exists tail,
    exec_rep a min s st =
    took (take_while (atom_matches a) s) (drop_while (atom_matches a) s) st
    :: tail.
Proof.
  induction s as [|c s IH]; intros min st Hst Hmin; simpl in *.
  - assert (min = 0) as -> by lia. exists []. by rewrite took_nothing.
  - destruct (atom_matches a c); simpl in *.
    + destruct (IH (pred min) (advance c s st)) as [tail Htail];
        [done | lia |].
      rewrite Htail, took_advance. eexists. reflexivity.
    + assert (min = 0) as -> by lia. exists []. by rewrite took_nothing.
Qed.

Lemma exec_rep_none a s : forall min st,
  String.length (take_while (atom_matches a) s) < min ->
  exec_rep a min s st = [].
Proof.
  induction s as [|c s IH]; intros min st Hmin; simpl in *.
  - destruct min; [lia | done].
  - destruct (atom_matches a c); simpl in *.
    + destruct min as [|min]; [lia|]. simpl. rewrite IH by lia. done.
    + destruct min; [lia | done].
Qed.

Lemma first_alt_rep a min st bol :
  min <= String.length (take_while (atom_matches a) (m_rest st)) ->
  first_alt (Rep a min) bol st
    (took (take_while (atom_matches a) (m_rest st))
       (drop_while (atom_matches a) (m_rest st)) st).
Proof. intros H. by apply exec_rep_first. Qed.

Lemma first_alt_eps st bol : first_alt Eps bol st st.
Proof. by exists []. Qed.

Lemma first_alt_bol st :
  m_taken st = EmptyString -> first_alt Bol true st st.
Proof. intros H. exists []. simpl. by rewrite H. Qed.

Lemma exec_seq r1 r2 bol st :
  exec (Seq r1 r2) bol st = exec r1 bol st ≫= exec r2 bol.
Proof. reflexivity. Qed.

Lemma first_alt_seq r1 r2 bol st h1 h2 :
  first_alt r1 bol st h1 -> first_alt r2 bol h1 h2 ->
  first_alt (Seq r1 r2) bol st h2.
Proof.
  intros [t1 H1] [t2 H2]. unfold first_alt.
  rewrite exec_seq, H1, bind_cons, H2.
  eexists. reflexivity.
Qed.

Lemma exec_seq_nil r1 r2 bol st :
  exec r1 bol st = [] -> exec (Seq r1 r2) bol st = [].
Proof. intros H. by rewrite exec_seq, H. Qed.

(** A match attempt gives the first alternative; with [match_not_null]
    when that alternative took something. *)
Lemma match_here_first r not_null bol s h :
  first_alt r bol (mkMstate EmptyString s ∅) h ->
  not_null = false \/ m_taken h <> EmptyString ->
  match_here r not_null bol s = Some h.
Proof.
  intros [tail H] Hnn. unfold match_here. rewrite H, filter_cons.
  rewrite decide_True; [done|].
  destruct Hnn as [->|Hne]; [done|].
  destruct (m_taken h); [done|]. by rewrite orb_true_r.
Qed.

Lemma match_here_none r not_null bol s :
  exec r bol (mkMstate EmptyString s ∅) = [] ->
  match_here r not_null bol s = None.
Proof. intros H. unfold match_here. by rewrite H. Qed.

Lemma regex_search_unfold r bol s pre :
  regex_search r bol s pre =
  match match_here r false bol s with
  | Some st => Some (mkMatch pre st)
  | None =>
      match s with
      | EmptyString => None
      | String c s' => regex_search r false s' (push_back pre c)
      end
  end.
Proof. by destruct s. Qed.

(** The text passed over before a search began is put before its
    prefix. *)
Lemma regex_search_pre r s : forall bol pre,
  regex_search r bol s pre =
  (fun m => mkMatch (pre +:+ mr_prefix m) (mr_found m))
  <$> regex_search r bol s EmptyString.
Proof.
  induction s as [|c s IH]; intros bol pre; simpl.
  - destruct (match_here r false bol EmptyString); simpl;
      [by rewrite append_nil_r | done].
  - destruct (match_here r false bol (String c s)); simpl;
      [by rewrite append_nil_r|].
    rewrite (IH false (push_back pre c)), (IH false (push_back EmptyString c)).
    destruct (regex_search r false s EmptyString); simpl; [|done].
    by rewrite push_back_append.
Qed.

End matcher.

(** ** The whitespace pattern of XMLParser *)

Section multiSpace.

Lemma nonspace_eq c : nonspace c = negb (isspace c).
Proof. done. Qed.

Lemma match_here_multiSpace not_null bol s :
  match_here XMLParser.multiSpace not_null bol s =
  match s with
  | String c _ =>
      if isspace c
      then Some (mkMstate (take_while isspace s) (drop_while isspace s) ∅)
      else None
  | EmptyString => None
  end.
Proof.
  destruct s as [|c s].
  - by apply match_here_none.
  - destruct (isspace c) eqn:Hc.
    + apply match_here_first.
      * eapply first_alt_seq; [|apply first_alt_eps].
        eapply (first_alt_rep Space 1 (mkMstate EmptyString (String c s) ∅)).
        simpl. rewrite Hc. simpl. lia.
      * right. simpl. by rewrite Hc.
    + apply match_here_none, exec_seq_nil. simpl. by rewrite Hc.
Qed.

Lemma regex_search_multiSpace s : forall bol pre,
  regex_search XMLParser.multiSpace bol s pre =
  let s1 := drop_while nonspace s in
  if is_empty s1 then None
  else Some (mkMatch (pre +:+ take_while nonspace s)
               (mkMstate (take_while isspace s1) (drop_while isspace s1) ∅)).
Proof.
  induction s as [|c s IH]; intros bol pre;
    rewrite regex_search_unfold, match_here_multiSpace; [done|].
  simpl. rewrite !(nonspace_eq c).
  destruct (isspace c) eqn:Hc; simpl.
  - by rewrite Hc, append_nil_r.
  - rewrite IH. cbv zeta. destruct (is_empty _); [done|].
    by rewrite push_back_append.
Qed.

Lemma collapse_whitespace_in_run s :
  collapse_whitespace true s = collapse_whitespace false (drop_while isspace s).
Proof.
  induction s as [|c s IH]; simpl; [done|].
  destruct (isspace c) eqn:Hc; simpl; [done | by rewrite Hc].
Qed.

Lemma collapse_whitespace_nonspace s :
  collapse_whitespace false s =
  take_while nonspace s +:+ collapse_whitespace false (drop_while nonspace s).
Proof.
  induction s as [|c s IH]; simpl; [done|]. rewrite !(nonspace_eq c).
  destruct (isspace c) eqn:Hc; simpl; [by rewrite Hc | by rewrite IH].
Qed.

Lemma collapse_whitespace_space s :
  match s with String c _ => isspace c = true | EmptyString => False end ->
  collapse_whitespace false s =
  String ch_space (collapse_whitespace false (drop_while isspace s)).
Proof.
  destruct s as [|c s]; [done|]. simpl. intros ->.
  by rewrite collapse_whitespace_in_run.
Qed.

Lemma drop_while_nonspace_head s :
  match drop_while nonspace s with
  | String c _ => isspace c = true
  | EmptyString => True
  end.
Proof.
  induction s as [|c s IH]; simpl; [done|]. rewrite !(nonspace_eq c).
  destruct (isspace c) eqn:Hc; simpl; done.
Qed.

(** The loop of [regex_replace] with the whitespace pattern collapses the
    runs of the text it has not passed yet. *)
Lemma replace_loop_multiSpace n : forall s fuel bol prev_avail,
  String.length s <= n -> String.length s <= fuel ->
  match regex_search XMLParser.multiSpace bol s EmptyString with
  | None => s
  | Some m =>
      replace_loop fuel XMLParser.multiSpace [Lit ch_space] m prev_avail
  end = collapse_whitespace false s.
Proof.
  induction n as [|n IH]; intros s fuel bol prev_avail Hn Hfuel.
  - destruct s; [done | simpl in Hn; lia].
  - rewrite regex_search_multiSpace. cbv zeta.
    rewrite (collapse_whitespace_nonspace s).
    pose proof (drop_while_nonspace_head s) as Hhead.
    pose proof (length_drop_while nonspace s) as Hlen.
    pose proof (take_drop_while nonspace s) as Hsplit.
    destruct (drop_while nonspace s) as [|c s1]; simpl is_empty.
    { simpl. by rewrite append_nil_r in *. }
    rewrite collapse_whitespace_space by done.
    set (rest := drop_while isspace (String c s1)).
    assert (String.length rest <= String.length s1) as Hrest.
    { unfold rest. simpl. rewrite Hhead. apply length_drop_while. }
    simpl in Hlen.
    destruct fuel as [|fuel]; [lia|].
    simpl replace_loop. unfold increment, mr_matched, mr_suffix. simpl mr_found.
    simpl m_taken. rewrite Hhead. simpl is_empty. simpl m_rest. fold rest.
    specialize (IH rest fuel false true ltac:(lia) ltac:(lia)).
    destruct (regex_search XMLParser.multiSpace false rest EmptyString)
      as [m|]; simpl; by rewrite <-IH.
Qed.

Lemma regex_replace_multiSpace s :
  regex_replace s XMLParser.multiSpace [Lit ch_space] =
  collapse_whitespace false s.
Proof.
  unfold regex_replace.
  apply (replace_loop_multiSpace (String.length s)); lia.
Qed.

Lemma scan_strip_tags xml : forall result inTag,
  XMLParser.scan xml result inTag = result +:+ strip_tags inTag xml.
Proof.
  induction xml as [|c xml IH]; intros result inTag; simpl.
  - by rewrite append_nil_r.
  - destruct (Ascii.eqb c "<"); [apply IH|].
    destruct (Ascii.eqb c ">"); [by rewrite IH, push_back_append|].
    destruct inTag; simpl; [apply IH | by rewrite IH, push_back_append].
Qed.

End multiSpace.

(** ** The replacement loop ends

    An alternative of a match takes a prefix of the text ahead, so every
    increment of the iterator leaves less text, or an empty match for a
    non-empty one: the loop of [regex_replace] never needs more than the
    fuel it is given. *)

Section fuel.

Implicit Types (r : regex) (a : atom) (st h : mstate) (s : string)
  (m : match_results).

Lemma continues_refl st : continues st st.
Proof. exists EmptyString. by rewrite append_nil_r. Qed.

Lemma continues_trans st1 st2 st3 :
  continues st1 st2 -> continues st2 st3 -> continues st1 st3.
Proof.
  intros (x & Hx1 & Hx2) (y & Hy1 & Hy2). exists (x +:+ y).
  by rewrite Hy1, Hx1, Hx2, Hy2, !append_assoc.
Qed.

Lemma continues_advance c rest st :
  m_rest st = String c rest -> continues st (advance c rest st).
Proof. intros H. exists (String c EmptyString). by rewrite H. Qed.

Lemma exec_rep_continues a s : forall min st h,
  m_rest st = s -> h ∈ exec_rep a min s st -> continues st h.
Proof.
  induction s as [|c s IH]; intros min st h Hst; simpl.
  - destruct min; [|by intros ?%elem_of_nil].
    intros ->%list_elem_of_singleton. apply continues_refl.
  - assert (h ∈ (if min is 0 then [st] else []) -> continues st h) as Hlast.
    { destruct min; [|by intros ?%elem_of_nil].
      intros ->%list_elem_of_singleton. apply continues_refl. }
    destruct (atom_matches a c); [|done].
    rewrite elem_of_app. intros [Hin|Hin]; [|by apply Hlast].
    eapply continues_trans; [by apply continues_advance|].
    by eapply IH.
Qed.

Lemma exec_continues r bol : forall st h,
  h ∈ exec r bol st -> continues st h.
Proof.
  induction r as [| |a|a min|r1 IH1 r2 IH2|n r IH]; intros st h; simpl.
  - intros ->%list_elem_of_singleton. apply continues_refl.
  - destruct (bol && is_empty (m_taken st)); [|by intros ?%elem_of_nil].
    intros ->%list_elem_of_singleton. apply continues_refl.
  - destruct (m_rest st) as [|c rest] eqn:Hst; [by intros ?%elem_of_nil|].
    destruct (atom_matches a c); [|by intros ?%elem_of_nil].
    intros ->%list_elem_of_singleton. by apply continues_advance.
  - by apply exec_rep_continues.
  - intros (st' & H2 & H1)%list_elem_of_bind.
    eapply continues_trans; [by apply IH1 | by apply IH2].
  - intros (st' & -> & H)%list_elem_of_fmap.
    destruct (IH _ _ H) as (x & Hx1 & Hx2). by exists x.
Qed.

Lemma match_here_split r not_null bol s h :
  match_here r not_null bol s = Some h ->
  s = m_taken h +:+ m_rest h /\
  (not_null = true -> m_taken h <> EmptyString).
Proof.
  unfold match_here. intros [Hp Hin]%head_Some_elem_of%list_elem_of_filter.
  apply exec_continues in Hin as (x & Hx1 & Hx2). simpl in *. split.
  - by rewrite Hx1, Hx2.
  - intros ->. by destruct (m_taken h).
Qed.

Lemma regex_search_split r s : forall bol m,
  regex_search r bol s EmptyString = Some m ->
  s = mr_prefix m +:+ mr_matched m +:+ mr_suffix m.
Proof.
  induction s as [|c s IH]; intros bol m; rewrite regex_search_unfold.
  - destruct (match_here r false bol EmptyString) as [h|] eqn:Hh; [|done].
    intros [= <-]. by apply match_here_split in Hh as [? _].
  - destruct (match_here r false bol (String c s)) as [h|] eqn:Hh.
    + intros [= <-]. by apply match_here_split in Hh as [? _].
    + rewrite regex_search_pre.
      destruct (regex_search r false s EmptyString) as [m0|] eqn:Hm0; [|done].
      intros [= <-]. apply IH in Hm0. simpl.
      unfold mr_matched, mr_suffix in *. simpl. by rewrite <-Hm0.
Qed.

Lemma work_search r s bol m :
  regex_search r bol s EmptyString = Some m ->
  work m <= 2 * String.length s + 1 /\
  (mr_prefix m <> EmptyString -> work m < 2 * String.length s).
Proof.
  intros H%regex_search_split. unfold work.
  assert (String.length s = String.length (mr_prefix m)
          + String.length (mr_matched m) + String.length (mr_suffix m)) as Hlen.
  { rewrite H at 1. rewrite !length_append. lia. }
  destruct (mr_matched m) as [|c x]; destruct (mr_prefix m) as [|d p];
    simpl in *; split; try done; try lia.
Qed.

Lemma work_search_shorter r s bol m :
  regex_search r bol s EmptyString = Some m ->
  mr_matched m <> EmptyString -> work m < 2 * String.length s.
Proof.
  intros H%regex_search_split Hne. unfold work.
  assert (String.length s = String.length (mr_prefix m)
          + String.length (mr_matched m) + String.length (mr_suffix m)) as Hlen.
  { rewrite H at 1. rewrite !length_append. lia. }
  destruct (mr_matched m) as [|c x]; [done|]. simpl in *. lia.
Qed.

Lemma increment_work r m prev_avail m' prev_avail' :
  increment r m prev_avail = Some (m', prev_avail') -> work m' < work m.
Proof.
  destruct m as [p [taken start caps]].
  unfold increment, work at 2, mr_matched, mr_suffix. simpl.
  destruct taken as [|c0 taken]; simpl.
  - destruct start as [|c start']; [done|].
    destruct (match_here r true (negb prev_avail) (String c start'))
      as [h|] eqn:Hh.
    + intros [= <- <-]. apply match_here_split in Hh as [Hsplit Hne].
      specialize (Hne eq_refl).
      assert (String.length (String c start')
              = String.length (m_taken h) + String.length (m_rest h)) as Hlen.
      { rewrite Hsplit at 1. by rewrite length_append. }
      unfold work, mr_matched, mr_suffix. simpl.
      destruct (m_taken h); [done|]. simpl in *. lia.
    + rewrite regex_search_pre.
      destruct (regex_search r false start' EmptyString) as [m0|] eqn:Hm0;
        [|done].
      intros [= <- <-]. apply work_search in Hm0 as [Hle _].
      unfold work, mr_matched, mr_suffix in *. simpl in *. lia.
  - destruct (regex_search r false start EmptyString) as [m0|] eqn:Hm0;
      [|done].
    intros [= <- <-].
    destruct (is_empty (mr_matched m0)) eqn:Hm0e.
    + apply work_search in Hm0 as [Hle _]. revert Hle.
      unfold work. rewrite Hm0e. lia.
    + apply work_search_shorter in Hm0; [lia|].
      intros E. by rewrite E in Hm0e.
Qed.

Lemma increment_work_0 r m prev_avail :
  work m = 0 -> increment r m prev_avail = None.
Proof.
  unfold work, increment. destruct (is_empty (mr_matched m)); [|lia].
  destruct (mr_suffix m); [done | simpl; lia].
Qed.

(** With enough fuel, the result does not depend on the fuel. *)
Lemma replace_loop_fuel r fmt fuel1 : forall fuel2 m prev_avail,
  work m <= fuel1 -> work m <= fuel2 ->
  replace_loop fuel1 r fmt m prev_avail
  = replace_loop fuel2 r fmt m prev_avail.
Proof.
  induction fuel1 as [|fuel1 IH]; intros fuel2 m prev_avail H1 H2.
  - destruct fuel2 as [|fuel2]; simpl; [done|].
    rewrite increment_work_0 by lia. done.
  - destruct fuel2 as [|fuel2]; simpl.
    + rewrite increment_work_0 by lia. done.
    + destruct (increment r m prev_avail) as [[m' pa']|] eqn:Hinc; [|done].
      apply increment_work in Hinc. rewrite (IH fuel2) by lia. done.
Qed.

(** So the loop satisfies the equation of a loop without a bound. *)
Lemma replace_loop_unfold r fmt fuel m prev_avail :
  work m <= fuel ->
  replace_loop fuel r fmt m prev_avail =
  mr_prefix m +:+ format_ fmt m +:+
  match increment r m prev_avail with
  | None => mr_suffix m
  | Some (m', prev_avail') => replace_loop fuel r fmt m' prev_avail'
  end.
Proof.
  intros Hfuel. destruct fuel as [|fuel]; simpl.
  - rewrite increment_work_0 by lia. done.
  - destruct (increment r m prev_avail) as [[m' pa']|] eqn:Hinc; [|done].
    apply increment_work in Hinc.
    rewrite (replace_loop_fuel r fmt fuel (S fuel)) by lia. done.
Qed.

(** [regex_replace] gives its loop enough fuel: more changes nothing. *)
Lemma regex_replace_enough_fuel r fmt s m fuel :
  regex_search r true s EmptyString = Some m ->
  2 * String.length s + 1 <= fuel ->
  replace_loop fuel r fmt m false = regex_replace s r fmt.
Proof.
  intros Hm Hfuel. unfold regex_replace. rewrite Hm.
  apply work_search in Hm as [Hwork _]. apply replace_loop_fuel; lia.
Qed.

Lemma format_prefix fmt p h :
  format_ fmt (mkMatch p h) = format_ fmt (mkMatch EmptyString h).
Proof.
  induction fmt as [|[c|n] fmt IH]; simpl; [done | by rewrite IH..].
Qed.

Lemma replace_loop_prefix r fmt fuel p q h prev_avail :
  replace_loop fuel r fmt (mkMatch (p +:+ q) h) prev_avail =
  p +:+ replace_loop fuel r fmt (mkMatch q h) prev_avail.
Proof.
  destruct fuel; simpl; rewrite (format_prefix fmt (p +:+ q)),
    (format_prefix fmt q), !append_assoc; done.
Qed.

End fuel.

(** ** Patterns without [^]

    For such a pattern a match does not depend on where the search began,
    and [regex_replace] scans: at a non-empty match it puts out the
    replacement and goes on after the match, and where nothing matches it
    copies a character. *)

Section bol_free.

Implicit Types (r : regex) (st h : mstate) (s : string) (m : match_results).

Lemma exec_bol_free r : forall bol st,
  bol_free r = true -> exec r bol st = exec r false st.
Proof.
  induction r as [| |a|a min|r1 IH1 r2 IH2|n r IH]; intros bol st; simpl;
    try done.
  - intros [H1 H2]%andb_true_iff. rewrite (IH1 bol) by done.
    apply list_bind_ext; [|done]. intros st'. by apply IH2.
  - intros H. by rewrite (IH bol).
Qed.

Lemma match_here_bol_free r not_null bol s :
  bol_free r = true ->
  match_here r not_null bol s = match_here r not_null false s.
Proof. intros H. unfold match_here. by rewrite exec_bol_free. Qed.

Lemma regex_search_bol_free r bol s pre :
  bol_free r = true ->
  regex_search r bol s pre = regex_search r false s pre.
Proof.
  intros H. rewrite !(regex_search_unfold r _ s).
  by rewrite match_here_bol_free.
Qed.

(** The iterator's flag only tells the matcher about [^]. *)
Lemma replace_loop_bol_free r fmt fuel : forall m prev_avail,
  bol_free r = true ->
  replace_loop fuel r fmt m prev_avail = replace_loop fuel r fmt m true.
Proof.
  induction fuel as [|fuel IH]; intros m prev_avail Hr; simpl; [done|].
  unfold increment. cbn [negb].
  rewrite (match_here_bol_free r true (negb prev_avail)) by done.
  destruct (is_empty (mr_matched m)).
  - destruct (mr_suffix m) as [|c start']; [done|].
    destruct (match_here r true false (String c start')); simpl.
    + by rewrite (IH _ prev_avail).
    + done.
  - done.
Qed.

#[local] Arguments replace_loop : simpl never.

Lemma regex_replace_from_bol_free r fmt bol prev_avail s :
  bol_free r = true ->
  regex_replace_from r fmt bol prev_avail s = regex_replace s r fmt.
Proof.
  intros Hr. unfold regex_replace_from, regex_replace.
  rewrite (regex_search_bol_free r bol), (regex_search_bol_free r true)
    by done.
  destruct (regex_search r false s EmptyString); [|done].
  by rewrite (replace_loop_bol_free r fmt _ _ prev_avail),
    (replace_loop_bol_free r fmt _ _ false).
Qed.

(** At a non-empty match the replacement is put out and the scan goes on
    after the match. *)
Lemma regex_replace_match r fmt s h :
  bol_free r = true ->
  match_here r false false s = Some h ->
  m_taken h <> EmptyString ->
  regex_replace s r fmt =
  format_ fmt (mkMatch EmptyString h) +:+ regex_replace (m_rest h) r fmt.
Proof.
  intros Hr Hh Hne.
  rewrite <-(regex_replace_from_bol_free r fmt false true (m_rest h)) by done.
  unfold regex_replace, regex_replace_from.
  rewrite regex_search_unfold, match_here_bol_free, Hh by done.
  pose proof (match_here_split _ _ _ _ _ Hh) as [Hsplit _].
  assert (String.length s
          = String.length (m_taken h) + String.length (m_rest h)) as Hlen.
  { rewrite Hsplit at 1. by rewrite length_append. }
  rewrite replace_loop_unfold.
  2:{ unfold work, mr_matched, mr_suffix. simpl.
      destruct (m_taken h); simpl; lia. }
  simpl. f_equal. unfold increment, mr_matched, mr_suffix. simpl.
  destruct (m_taken h) as [|c x] eqn:Htaken; [done|]. simpl.
  destruct (regex_search r false (m_rest h) EmptyString) as [m'|] eqn:Hm';
    simpl; [|done].
  apply work_search in Hm' as [Hwork _].
  apply replace_loop_fuel; simpl in *; lia.
Qed.

(** Where nothing matches a character is copied. *)
Lemma regex_replace_skip r fmt c s :
  bol_free r = true ->
  match_here r false false (String c s) = None ->
  regex_replace (String c s) r fmt = String c (regex_replace s r fmt).
Proof.
  intros Hr Hnone.
  rewrite <-(regex_replace_from_bol_free r fmt false false s) by done.
  unfold regex_replace, regex_replace_from.
  rewrite regex_search_unfold, match_here_bol_free, Hnone by done.
  rewrite regex_search_pre.
  destruct (regex_search r false s EmptyString) as [[p h]|] eqn:Hm; simpl;
    [|done].
  change (String c p) with (String c EmptyString +:+ p).
  rewrite replace_loop_prefix. simpl. f_equal.
  apply work_search in Hm as [Hwork _].
  apply replace_loop_fuel; simpl in *; lia.
Qed.

Lemma regex_replace_end r fmt :
  match_here r false true EmptyString = None ->
  regex_replace EmptyString r fmt = EmptyString.
Proof.
  intros Hnone. unfold regex_replace.
  by rewrite regex_search_unfold, Hnone.
Qed.

End bol_free.

(** ** The header pattern of MarkdownParser *)

Section header.

Import MarkdownParser.

Lemma exec_header_not_bol st : exec re_header false st = [].
Proof. done. Qed.

Lemma regex_search_header_not_bol s : forall pre,
  regex_search re_header false s pre = None.
Proof.
  induction s as [|c s IH]; intros pre; rewrite regex_search_unfold;
    rewrite match_here_none by apply exec_header_not_bol; [done | apply IH].
Qed.

Lemma exec_bol_seq r st :
  exec (Seq Bol r) true st =
  if is_empty (m_taken st) then exec r true st else [].
Proof.
  rewrite exec_seq. simpl.
  destruct (is_empty (m_taken st)); [by rewrite bind_singleton | done].
Qed.

Lemma match_here_header_none not_null md :
  match md with String c _ => is_hash c = false | EmptyString => True end ->
  match_here re_header not_null true md = None.
Proof.
  intros Hmd. apply match_here_none. unfold re_header, sequence. simpl foldr.
  rewrite exec_bol_seq. simpl is_empty. cbv iota.
  apply exec_seq_nil. simpl. apply exec_rep_none.
  destruct md as [|c md]; simpl; [lia|]. fold (is_hash c). rewrite Hmd.
  simpl. lia.
Qed.

Lemma match_here_header c md :
  is_hash c = true ->
  exists h,
    match_here re_header false true (String c md) = Some h /\
    m_taken h <> EmptyString /\
    m_rest h = drop_while isspace (drop_while is_hash (String c md)).
Proof.
  intros Hc. eexists. split; [|split].
  - apply match_here_first; [|by left].
    eapply first_alt_seq; [by apply first_alt_bol|].
    eapply first_alt_seq.
    { apply (first_alt_rep (Chr "#") 1). simpl. fold (is_hash c).
      rewrite Hc. simpl. lia. }
    eapply first_alt_seq; [|apply first_alt_eps].
    apply (first_alt_rep Space 0). lia.
  - simpl. fold (is_hash c). rewrite Hc. done.
  - reflexivity.
Qed.

Lemma regex_replace_header md :
  regex_replace md re_header [] = strip_header md.
Proof.
  unfold regex_replace, strip_header. rewrite regex_search_unfold.
  destruct md as [|c md]; [by rewrite match_here_header_none|].
  destruct (is_hash c) eqn:Hc.
  - destruct (match_here_header c md Hc) as (h & -> & Hne & Hrest).
    pose proof (length_drop_while isspace (drop_while is_hash (String c md))).
    pose proof (length_drop_while is_hash (String c md)).
    rewrite replace_loop_unfold.
    2:{ unfold work, mr_suffix, mr_matched. simpl mr_found. rewrite Hrest.
        destruct (is_empty (m_taken h)); lia. }
    unfold increment, mr_matched, mr_suffix. simpl.
    destruct (m_taken h); [done|]. simpl.
    by rewrite regex_search_header_not_bol, Hrest.
  - rewrite match_here_header_none by done.
    by rewrite regex_search_header_not_bol.
Qed.

End header.

(** ** Runs that end at a stop character

    After a greedy run of an atom, a pattern that goes on with a character
    the atom does not match can only go on after the longest run: a shorter
    run is followed by a character of the run. *)

Section runs.

Implicit Types (r : regex) (a : atom) (st h : mstate) (s : string).

Lemma exec_rep_bind_longest a (g : mstate -> list mstate) s :
  (forall st' d rest',
     m_rest st' = String d rest' -> atom_matches a d = true -> g st' = []) ->
  forall min st,
  m_rest st = s ->
  exec_rep a min s st ≫= g =
  if min <=? String.length (take_while (atom_matches a) s)
  then g (took (take_while (atom_matches a) s)
            (drop_while (atom_matches a) s) st)
  else [].
Proof.
  intros Hg. induction s as [|c s IH]; intros min st Hst; simpl.
  - destruct min; simpl; [|done]. by rewrite app_nil_r, took_nothing.
  - destruct (atom_matches a c) eqn:Hc; simpl.
    + rewrite bind_app, (IH (pred min) (advance c s st)) by done.
      rewrite took_advance.
      assert ((if min is 0 then [st] else []) ≫= g = []) as ->.
      { destruct min; [|done]. rewrite bind_singleton. by eapply Hg. }
      rewrite app_nil_r. by destruct min.
    + destruct min; simpl; [|done]. by rewrite app_nil_r, took_nothing.
Qed.

Lemma exec_one_seq c r bol st :
  exec (Seq (One (Chr c)) r) bol st =
  match m_rest st with
  | String d rest =>
      if Ascii.eqb d c then exec r bol (advance d rest st) else []
  | EmptyString => []
  end.
Proof.
  rewrite exec_seq. simpl. destruct (m_rest st) as [|d rest]; [done|].
  destruct (Ascii.eqb d c); [by rewrite bind_singleton | done].
Qed.

Lemma exec_one_seq_stop a c r bol st d rest :
  atom_matches a c = false ->
  m_rest st = String d rest -> atom_matches a d = true ->
  exec (Seq (One (Chr c)) r) bol st = [].
Proof.
  intros Hc Hst Hd. rewrite exec_one_seq, Hst.
  destruct (Ascii.eqb_spec d c) as [->|]; [congruence | done].
Qed.

(** A run, then the stop character. *)
Lemma exec_rep_stop a min c r bol st :
  atom_matches a c = false ->
  exec (Seq (Rep a min) (Seq (One (Chr c)) r)) bol st =
  if min <=? String.length (take_while (atom_matches a) (m_rest st))
  then exec (Seq (One (Chr c)) r) bol
         (took (take_while (atom_matches a) (m_rest st))
            (drop_while (atom_matches a) (m_rest st)) st)
  else [].
Proof.
  intros Hc. rewrite exec_seq.
  change (exec (Rep a min) bol st) with (exec_rep a min (m_rest st) st).
  apply exec_rep_bind_longest; [|done].
  intros st' d rest' Hst' Hd. by eapply exec_one_seq_stop.
Qed.

(** A captured run, then the stop character. *)
Lemma exec_group_rep_stop n a min c r bol st :
  atom_matches a c = false ->
  exec (Seq (Group n (Rep a min)) (Seq (One (Chr c)) r)) bol st =
  if min <=? String.length (take_while (atom_matches a) (m_rest st))
  then exec (Seq (One (Chr c)) r) bol
         (captured n st
            (took (take_while (atom_matches a) (m_rest st))
               (drop_while (atom_matches a) (m_rest st)) st))
  else [].
Proof.
  intros Hc. rewrite exec_seq.
  change (exec (Group n (Rep a min)) bol st)
    with (captured n st <$> exec_rep a min (m_rest st) st).
  rewrite list_fmap_bind.
  apply (exec_rep_bind_longest a
           (exec (Seq (One (Chr c)) r) bol ∘ captured n st)); [|done].
  intros st' d rest' Hst' Hd. simpl.
  by apply (exec_one_seq_stop a c r bol (captured n st st') d rest').
Qed.

Lemma captured_took n x rest st :
  m_caps (captured n st (took x rest st)) !! n = Some x.
Proof.
  unfold captured, took. simpl.
  by rewrite lookup_insert_eq, substr_length_append.
Qed.

End runs.

(** ** Scanning for occurrences *)

Section scanning.

Implicit Types (r : regex) (st h : mstate) (s : string).

Lemma regex_replace_rewrites r fmt occ :
  bol_free r = true -> finds r fmt occ ->
  forall s, rewrites occ s (regex_replace s r fmt).
Proof.
  intros Hr Hfinds s.
  remember (String.length s) as n eqn:Hn. revert s Hn.
  induction (lt_wf n) as [n _ IH]. intros s ->.
  pose proof (Hfinds s) as Hs.
  destruct (match_here r false false s) as [h|] eqn:Hh.
  - destruct Hs as [Hne Hocc].
    rewrite (regex_replace_match r fmt s h) by done.
    eapply rewrites_occurrence; [done|].
    apply match_here_split in Hh as [Hsplit _].
    eapply IH; [|done]. rewrite Hsplit, length_append.
    destruct (m_taken h); [done | simpl; lia].
  - destruct s as [|c s].
    + rewrite regex_replace_end by (by rewrite match_here_bol_free).
      by constructor.
    + rewrite regex_replace_skip by done.
      apply rewrites_copy; [done|]. eapply IH; [|done]. simpl. lia.
Qed.

(** [rewrites] has one result. *)
Lemma rewrites_functional occ s t1 t2 :
  rewrites occ s t1 -> rewrites occ s t2 -> t1 = t2.
Proof.
  intros H1. revert t2.
  induction H1 as [Hocc|s out rest t Hocc H1 IH|c s t Hocc H1 IH];
    intros t2 H2; inversion H2; subst; try congruence.
  - assert (out0 = out /\ rest0 = rest) as [-> ->]
      by (split; congruence).
    f_equal. by apply IH.
  - f_equal. by apply IH.
Qed.

End scanning.

(** ** The substitutions of MarkdownParser *)

Section substitutions.

Import MarkdownParser.

Lemma take_while_none_of c s :
  take_while (atom_matches (NoneOf [c])) s =
  take_while (fun d => negb (Ascii.eqb d c)) s.
Proof.
  induction s as [|d s IH]; simpl; [done|].
  rewrite orb_false_r. by rewrite IH.
Qed.

Lemma drop_while_none_of c s :
  drop_while (atom_matches (NoneOf [c])) s =
  drop_while (fun d => negb (Ascii.eqb d c)) s.
Proof.
  induction s as [|d s IH]; simpl; [done|].
  rewrite orb_false_r. by rewrite IH.
Qed.

Lemma none_of_stop c : atom_matches (NoneOf [c]) c = false.
Proof. simpl. by rewrite Ascii.eqb_refl. Qed.

Lemma push_back_nonempty s c : push_back s c <> EmptyString.
Proof. by destruct s. Qed.

Lemma match_here_head r bol s :
  match_here r false bol s = head (exec r bol (mkMstate EmptyString s ∅)).
Proof.
  unfold match_here. f_equal.
  induction (exec r bol _) as [|h l IH]; [done|].
  by rewrite filter_cons, decide_True, IH.
Qed.

#[local] Arguments Nat.leb : simpl never.
#[local] Arguments exec : simpl never.

(** One step of a match attempt at a literal character of the pattern,
    with the case analysis on the text [s] ahead. *)
Ltac literal s :=
  rewrite exec_one_seq; simpl m_rest;
  let c := fresh "c" in
  destruct s as [|c s]; simpl; [done|];
  destruct (Ascii.eqb c _); simpl; [|done].

Ltac literal_after_run :=
  rewrite exec_one_seq; simpl m_rest;
  let c := fresh "c" in
  let s := fresh "s" in
  destruct (drop_while _ _) as [|c s]; simpl; [done|];
  destruct (Ascii.eqb c _); simpl; [|done].

Ltac run :=
  first [rewrite exec_group_rep_stop by apply none_of_stop
        |rewrite exec_rep_stop by apply none_of_stop];
  simpl m_rest; rewrite take_while_none_of, drop_while_none_of;
  first [destruct (S _ <=? _); simpl; [|done]
        |change (0 <=? ?n) with true; cbv iota].

Ltac matched :=
  split; [apply push_back_nonempty
         |by rewrite ?lookup_insert_eq, ?append_nil_r].

Lemma finds_bold : finds re_bold [Sub 1] bold_at.
Proof.
  intros s. rewrite match_here_head.
  unfold re_bold, sequence, bold_at, wrapped. simpl foldr.
  literal s. literal s. run. literal_after_run. literal s0. matched.
Qed.

Lemma finds_italic : finds re_italic [Sub 1] italic_at.
Proof.
  intros s. rewrite match_here_head.
  unfold re_italic, sequence, italic_at, wrapped. simpl foldr.
  literal s. run. literal_after_run. matched.
Qed.

Lemma finds_link : finds re_link [Sub 1] link_at.
Proof.
  intros s. rewrite match_here_head.
  unfold re_link, sequence, link_at, wrapped. simpl foldr.
  literal s. run. literal_after_run. literal s0. run. literal_after_run.
  matched.
Qed.

Lemma finds_fence : finds re_fence [] fence_at.
Proof.
  intros s. rewrite match_here_head.
  unfold re_fence, sequence, fence_at, wrapped. simpl foldr.
  literal s. literal s. literal s. run. literal_after_run. literal s0.
  literal s0. matched.
Qed.

Lemma finds_code : finds re_code [Sub 1] code_at.
Proof.
  intros s. rewrite match_here_head.
  unfold re_code, sequence, code_at, wrapped. simpl foldr.
  literal s. run. literal_after_run. matched.
Qed.

(** The meaning of [wrapped] when the closing text begins with the stop
    character: the occurrence is the opening, a text without the stop
    character, and the closing. *)
Lemma strip_prefix_Some p s rest :
  strip_prefix p s = Some rest <-> s = p +:+ rest.
Proof.
  revert s. induction p as [|c p IH]; intros s; simpl.
  - split; congruence.
  - destruct s as [|d s]; [done|].
    destruct (Ascii.eqb_spec d c) as [->|Hne].
    + rewrite IH. split; congruence.
    + split; congruence.
Qed.

Lemma take_while_not_in stop s :
  stop ∉ chars (take_while (fun c => negb (Ascii.eqb c stop)) s).
Proof.
  induction s as [|c s IH]; simpl; [by intros ?%elem_of_nil|].
  destruct (Ascii.eqb_spec c stop) as [->|Hne]; simpl.
  - by intros ?%elem_of_nil.
  - rewrite not_elem_of_cons. split; [congruence | done].
Qed.

Lemma take_drop_while_stop stop x rest :
  stop ∉ chars x ->
  take_while (fun c => negb (Ascii.eqb c stop)) (x +:+ String stop rest) = x
  /\ drop_while (fun c => negb (Ascii.eqb c stop)) (x +:+ String stop rest)
     = String stop rest.
Proof.
  induction x as [|c x IH]; simpl.
  - intros _. by rewrite Ascii.eqb_refl.
  - rewrite not_elem_of_cons. intros [Hne Hx].
    destruct (Ascii.eqb_spec c stop) as [->|_]; [done|]. simpl.
    destruct (IH Hx) as [-> ->]. done.
Qed.

#[local] Arguments strip_prefix : simpl never.

Lemma wrapped_Some opening stop min closing s x rest :
  wrapped opening stop min (String stop closing) s = Some (x, rest) <->
  s = opening +:+ x +:+ String stop closing +:+ rest /\
  min <= String.length x /\ stop ∉ chars x.
Proof.
  unfold wrapped. split.
  - destruct (strip_prefix opening s) as [s1|] eqn:Hs1; simpl; [|done].
    apply strip_prefix_Some in Hs1 as ->.
    destruct (Nat.leb_spec min
                (String.length
                   (take_while (fun c => negb (Ascii.eqb c stop)) s1)));
      [|done].
    destruct (strip_prefix (String stop closing)
                (drop_while (fun c => negb (Ascii.eqb c stop)) s1))
      as [rest'|] eqn:Hrest; [|done].
    intros [= <- <-]. apply strip_prefix_Some in Hrest.
    split; [|split; [done | apply take_while_not_in]].
    rewrite <-(take_drop_while (fun c => negb (Ascii.eqb c stop)) s1) at 1.
    by rewrite Hrest.
  - intros (-> & Hmin & Hx).
    assert (strip_prefix opening
              (opening +:+ x +:+ String stop closing +:+ rest)
            = Some (x +:+ String stop closing +:+ rest)) as ->
      by by apply strip_prefix_Some.
    simpl mbind.
    destruct (take_drop_while_stop stop x (closing +:+ rest) Hx) as [Ht Hd].
    simpl in *. rewrite Ht, Hd.
    destruct (Nat.leb_spec min (String.length x)); [|lia].
    assert (strip_prefix (String stop closing) (String stop (closing +:+ rest))
            = Some rest) as -> by by apply strip_prefix_Some.
    done.
Qed.

#[local] Arguments wrapped : simpl never.

Lemma bold_at_Some s x rest :
  bold_at s = Some (x, rest) <->
  s = "**" +:+ x +:+ "**" +:+ rest /\ 1 <= String.length x /\
  "*"%char ∉ chars x.
Proof. apply (wrapped_Some "**" "*" 1 "*"). Qed.

Lemma italic_at_Some s x rest :
  italic_at s = Some (x, rest) <->
  s = "*" +:+ x +:+ "*" +:+ rest /\ 1 <= String.length x /\
  "*"%char ∉ chars x.
Proof. apply (wrapped_Some "*" "*" 1 EmptyString). Qed.

Lemma code_at_Some s x rest :
  code_at s = Some (x, rest) <->
  s = "`" +:+ x +:+ "`" +:+ rest /\ 1 <= String.length x /\
  "`"%char ∉ chars x.
Proof. apply (wrapped_Some "`" "`" 1 EmptyString). Qed.

Lemma fence_at_Some s out rest :
  fence_at s = Some (out, rest) <->
  out = EmptyString /\
  exists x, s = "```" +:+ x +:+ "```" +:+ rest /\ "`"%char ∉ chars x.
Proof.
  unfold fence_at. split.
  - destruct (wrapped "```" "`" 0 "```" s) as [[x rest']|] eqn:Hw; [|done].
    intros [= <- <-]. apply (wrapped_Some "```" "`" 0 "``") in Hw.
    split; [done|]. exists x. tauto.
  - intros (-> & x & Hs & Hx).
    assert (wrapped "```" "`" 0 "```" s = Some (x, rest)) as ->; [|done].
    apply (wrapped_Some "```" "`" 0 "``"). split; [done | split; [lia | done]].
Qed.

Lemma link_at_Some s x rest :
  link_at s = Some (x, rest) <->
  exists y,
    s = "[" +:+ x +:+ "](" +:+ y +:+ ")" +:+ rest /\
    1 <= String.length x /\ ("]"%char ∉ chars x) /\
    1 <= String.length y /\ ")"%char ∉ chars y.
Proof.
  unfold link_at. split.
  - destruct (wrapped "[" "]" 1 "](" s) as [[x' s1]|] eqn:Hx; [|done].
    simpl.
    destruct (wrapped EmptyString ")" 1 ")" s1) as [[y rest']|] eqn:Hy; [|done].
    intros [= <- <-].
    apply (wrapped_Some "[" "]" 1 "(") in Hx as (-> & Hx1 & Hx2).
    apply (wrapped_Some EmptyString ")" 1 EmptyString) in Hy as (-> & Hy1 & Hy2).
    exists y. done.
  - intros (y & -> & Hx1 & Hx2 & Hy1 & Hy2).
    assert (wrapped "[" "]" 1 "](" ("[" +:+ x +:+ "](" +:+ y +:+ ")" +:+ rest)
            = Some (x, y +:+ ")" +:+ rest)) as ->.
    { by apply (wrapped_Some "[" "]" 1 "("). }
    simpl.
    assert (wrapped EmptyString ")" 1 ")" (y +:+ String ")" rest)
            = Some (y, rest)) as ->.
    { by apply (wrapped_Some EmptyString ")" 1 EmptyString). }
    done.
Qed.

End substitutions.

(** * The claims *)

(** C1 fails on the code: a closing bracket read outside a string while
    [indent] is zero takes [indent] below zero, the fill constructor of
    [std::string] gets the negative count as a huge [size_t] and throws
    [std::length_error]; so [formatJSON] throws on an input that begins
    with a closing bracket or closes one bracket too many, and
    [parseDocument] throws the wrapped error instead of returning a
    document. *)
Theorem formatJSON_closing_bracket_throws :
  (forall (prev : option ascii) (res : string) (c : ascii),
     c = "}"%char \/ c = "]"%char ->
     JSONParser.formatJSON_step prev c (JSONParser.mkLocals res 0 false) =
       Throw (length_error "basic_string::_M_create")) /\
  (forall rest : string,
     JSONParser.formatJSON (String "}" rest) =
       Throw (length_error "basic_string::_M_create")) /\
  (forall rest : string,
     JSONParser.formatJSON (String "]" rest) =
       Throw (length_error "basic_string::_M_create")) /\
  JSONParser.formatJSON "{}}" =
    Throw (length_error "basic_string::_M_create") /\
  parseDocument (fun _ => Some "}") "bad.json" =
    Throw (runtime_error "Failed to parse bad.json: basic_string::_M_create").
Proof.
  split.
  { intros prev res c [-> | ->]; unfold JSONParser.formatJSON_step;
      cbn [Ascii.eqb Bool.eqb ch_dquote andb orb negb JSONParser.inString
           JSONParser.indent JSONParser.result_];
      by rewrite string_fill_negative. }
  split; [by intros rest|]. split; [by intros rest|].
  split; [by vm_compute | by vm_compute].
Qed.

(** On well-nested input the same function re-indents. *)
Example formatJSON_example :
  JSONParser.formatJSON json_example =
  Ok (join (String ch_nl EmptyString)
        ["{";
         "  " +:+ String ch_dquote ("a" +:+ String ch_dquote ":1,");
         "  " +:+ String ch_dquote ("b" +:+ String ch_dquote ":[");
         "    1,";
         "    2";
         "  ]";
         "}"]).
Proof. by vm_compute. Qed.

(** C2: on the example input the CSV parser gives two rows, the first with
    the fields a, b and c,d (the comma between the quotes does not split),
    [rows] is 2, [columns] is 3, the number of fields of the first row, and
    the content has the fields of each row joined by space-bar-space and a
    newline after each row, so it contains the first row so joined. *)
Theorem CSVParser_parse_example :
  let doc := CSVParser.parse_content csv_example in
  CSVParser.parse (fun _ => Some csv_example) "table.csv" = Ok doc /\
  CSVParser.parseCSV csv_example = [["a"; "b"; "c,d"]; ["1"; "2"; "3"]] /\
  metadata doc !! "rows" = Some "2" /\
  metadata doc !! "columns" = Some "3" /\
  content doc = "a | b | c,d" +:+ String ch_nl ("1 | 2 | 3" +:+ String ch_nl EmptyString) /\
  (exists before after, content doc = before +:+ "a | b | c,d" +:+ after) /\
  (forall input : string,
     let rows := CSVParser.parseCSV input in
     let doc := CSVParser.parse_content input in
     metadata doc !! "rows" = Some (to_string (Z.of_nat (length rows))) /\
     metadata doc !! "columns" =
       (fun row0 => to_string (Z.of_nat (length row0))) <$> head rows /\
     content doc =
       foldr (fun row out => join " | " row +:+ String ch_nl out)
         EmptyString rows).
Proof.
  cbv zeta. split; [reflexivity|]. split; [by vm_compute|].
  split; [by vm_compute|]. split; [by vm_compute|]. split; [by vm_compute|].
  split.
  { exists EmptyString, (String ch_nl ("1 | 2 | 3" +:+ String ch_nl EmptyString)).
    by vm_compute. }
  intros input. unfold CSVParser.parse_content.
  destruct (CSVParser.parseCSV input) as [|row0 rows] eqn:Hrows; simpl.
  - by rewrite lookup_insert_eq, lookup_insert_ne, lookup_empty.
  - rewrite lookup_insert_ne by done. rewrite !lookup_insert_eq.
    by rewrite format_row_join, format_rows_join.
Qed.

(** C3 as the code has it: every document [parseDocument] returns has one
    of the seven format tags, none of them empty, and so has the dictionary
    of [parse_document]; [parse_text] copies the content and the format
    string of its caller, whatever it is, and sets [type] to
    direct_content. *)
Theorem format_tag_of_documents :
  (forall (fs : filesystem) (filename : string) (doc : Document),
     parseDocument fs filename = Ok doc ->
     format doc ∈ ["text"; "csv"; "json"; "xml"; "html"; "htm"; "markdown"]
     /\ format doc <> EmptyString) /\
  (forall (fs : filesystem) (filename : string) (d : py_dict),
     PyDocumentParser.parse_document fs filename = Ok d ->
     py_format d <> EmptyString) /\
  (forall content_ format_ : string,
     let d := PyDocumentParser.parse_text_content content_ format_ in
     py_content d = content_ /\
     py_format d = format_ /\
     py_metadata d !! "type" = Some "direct_content" /\
     (py_format d <> EmptyString <-> format_ <> EmptyString)).
Proof.
  assert (Hdoc : forall fs filename doc,
            parseDocument fs filename = Ok doc ->
            format doc ∈ ["text"; "csv"; "json"; "xml"; "html"; "htm"; "markdown"]).
  { intros fs filename doc. rewrite parseDocument_detect.
    destruct (detect filename) as [p|] eqn:Hp; simpl; [|done].
    apply detect_extensions in Hp.
    destruct (parse p fs filename) as [doc0|e] eqn:Hparse; [|done].
    intros [= <-]. simpl. revert Hparse.
    destruct p; simpl;
      unfold TextParser.parse, CSVParser.parse, JSONParser.parse,
        XMLParser.parse, MarkdownParser.parse, readFile;
      destruct (fs filename) as [input|]; simpl; try done.
    - intros [= <-]. simpl. elem_of_list.
    - intros [= <-]. unfold CSVParser.parse_content.
      destruct (CSVParser.parseCSV input); simpl; elem_of_list.
    - unfold JSONParser.parse_content.
      destruct (JSONParser.formatJSON input); simpl; [|done].
      intros [= <-]. simpl. elem_of_list.
    - intros [= <-]. simpl. simpl in Hp. revert Hp.
      rewrite !elem_of_cons. tauto.
    - intros [= <-]. simpl. elem_of_list. }
  assert (Hne : forall fs filename doc,
            parseDocument fs filename = Ok doc -> format doc <> EmptyString).
  { intros fs filename doc H%Hdoc. revert H. rewrite !elem_of_cons, elem_of_nil.
    intros H; destruct_or!; try done; by rewrite H. }
  split; [eauto|]. split.
  - intros fs filename d. unfold PyDocumentParser.parse_document.
    destruct (parseDocument fs filename) as [doc|e] eqn:Hparse; [|done].
    intros [= <-]. simpl. by eapply Hne.
  - intros content_ format_. simpl. by rewrite lookup_insert_eq.
Qed.

Lemma format_tag_of_documents_witness :
  exists doc,
    parseDocument (fun _ => Some "<p>x</p>") "page.HTML" = Ok doc /\
    format doc = "html" /\ format doc <> EmptyString.
Proof.
  eexists. split; [vm_compute; reflexivity|]. split; [reflexivity|].
  eapply (proj1 format_tag_of_documents (fun _ => Some "<p>x</p>") "page.HTML").
  vm_compute. reflexivity.
Defined.

(** C3, as stated, fails on [parse_text] with an empty format string: the
    dictionary it returns has an empty format tag. *)
Lemma parse_text_content_empty_format :
  py_format (PyDocumentParser.parse_text_content "some text" EmptyString)
  = EmptyString.
Proof. reflexivity. Qed.

(** C4: the extension is the lower-cased text after the last dot, and empty
    when there is no dot; each parser is selected exactly on its own
    extensions, so A.CSV and a.csv select the same parser, and
    [canParseFile] holds exactly on the nine extensions. The selected
    parser is the one [parseDocument] parses with. *)
Theorem detect_by_extension (filename : string) :
  let ext := getFileExtension filename in
  ("."%char ∉ chars filename -> ext = EmptyString) /\
  (forall pre suf,
     filename = pre +:+ String "." suf -> "."%char ∉ chars suf ->
     ext = toLowerCase suf) /\
  (detect filename = Some Text <-> ext ∈ ["txt"; "text"]) /\
  (detect filename = Some CSV <-> ext = "csv") /\
  (detect filename = Some JSON <-> ext = "json") /\
  (detect filename = Some XML <-> ext ∈ ["xml"; "html"; "htm"]) /\
  (detect filename = Some Markdown <-> ext ∈ ["md"; "markdown"]) /\
  (canParseFile filename = true <->
   ext ∈ ["txt"; "text"; "csv"; "json"; "xml"; "html"; "htm"; "md";
          "markdown"]) /\
  (forall fs : filesystem,
     parseDocument fs filename =
     parseDocument_with fs filename (detect filename)) /\
  detect "A.CSV" = detect "a.csv" /\
  detect "a.csv" = Some CSV.
Proof.
  cbv zeta. split; [apply getFileExtension_no_dot|].
  split; [intros pre suf ->; apply getFileExtension_last_dot|].
  rewrite !detect_extensions. simpl.
  split; [done|]. split; [by rewrite list_elem_of_singleton|].
  split; [by rewrite list_elem_of_singleton|]. split; [done|].
  split; [done|].
  split; [|split; [intros fs; apply parseDocument_detect|
                   split; [reflexivity | by apply list_elem_of_singleton]]].
  rewrite canParseFile_detect. split.
  - intros [p Hp%detect_extensions]. revert Hp.
    destruct p; simpl; rewrite !elem_of_cons; tauto.
  - rewrite !elem_of_cons, elem_of_nil. intros H.
    assert (exists p, getFileExtension filename ∈ extensions p) as [p Hp].
    { destruct_or!; try done;
        [exists Text|exists Text|exists CSV|exists JSON|exists XML|exists XML
        |exists XML|exists Markdown|exists Markdown];
        simpl; rewrite !elem_of_cons; tauto. }
    exists p. by apply detect_extensions.
Qed.

Lemma detect_by_extension_witness :
  getFileExtension "archive.tar.Html" = toLowerCase "Html".
Proof.
  apply (proj1 (proj2 (detect_by_extension "archive.tar.Html"))
           "archive.tar" "Html"); [reflexivity|].
  vm_compute. intros H. by repeat (apply elem_of_cons in H as [?|H]; [done|]);
    apply elem_of_nil in H.
Defined.

(** C5: the content of the markup parser is the input with every [<]
    dropped, every character inside a tag dropped, a space for every [>]
    and every other character kept, and then every maximal run of
    whitespace of the whole result collapsed into one space; on the
    example the content is Hello World with one space before, between and
    after. *)
Theorem extractTextFromXML_strips_and_collapses :
  (forall xml : string,
     XMLParser.extractTextFromXML xml =
     collapse_whitespace false (strip_tags false xml)) /\
  (forall ext xml : string,
     content (XMLParser.parse_content ext xml) =
     collapse_whitespace false (strip_tags false xml)) /\
  XMLParser.extractTextFromXML xml_example = " Hello World ".
Proof.
  assert (H : forall xml, XMLParser.extractTextFromXML xml =
                          collapse_whitespace false (strip_tags false xml)).
  { intros xml. unfold XMLParser.extractTextFromXML.
    by rewrite regex_replace_multiSpace, scan_strip_tags. }
  split; [done|]. split; [intros ext xml; apply H | by vm_compute].
Qed.

(** C6: the Markdown parser takes a leading run of [#] and the whitespace
    after it off the start of the whole content only, so a header on a
    later line stays; then, one after the other, it unwraps bold text,
    unwraps emphasised text, puts the label in place of a link, removes
    the fenced blocks with their contents, and unwraps inline code, each
    time at every occurrence from left to right. An occurrence is the
    opening mark, a text without the closing character, and the closing
    mark. On the example nothing of the markup is left. *)
Theorem convertMarkdownToText_substitutions :
  (forall md : string,
     exists t1 t2 t3 t4,
       rewrites bold_at (strip_header md) t1 /\
       rewrites italic_at t1 t2 /\
       rewrites link_at t2 t3 /\
       rewrites fence_at t3 t4 /\
       rewrites code_at t4 (MarkdownParser.convertMarkdownToText md)) /\
  (forall s x rest : string,
     (bold_at s = Some (x, rest) <->
      s = "**" +:+ x +:+ "**" +:+ rest /\ 1 <= String.length x /\
      "*"%char ∉ chars x) /\
     (italic_at s = Some (x, rest) <->
      s = "*" +:+ x +:+ "*" +:+ rest /\ 1 <= String.length x /\
      "*"%char ∉ chars x) /\
     (link_at s = Some (x, rest) <->
      exists y,
        s = "[" +:+ x +:+ "](" +:+ y +:+ ")" +:+ rest /\
        1 <= String.length x /\ ("]"%char ∉ chars x) /\
        1 <= String.length y /\ ")"%char ∉ chars y) /\
     (fence_at s = Some (x, rest) <->
      x = EmptyString /\
      exists body, s = "```" +:+ body +:+ "```" +:+ rest /\
                   "`"%char ∉ chars body) /\
     (code_at s = Some (x, rest) <->
      s = "`" +:+ x +:+ "`" +:+ rest /\ 1 <= String.length x /\
      "`"%char ∉ chars x)) /\
  (forall md : string,
     content (MarkdownParser.parse_content md) =
     MarkdownParser.convertMarkdownToText md) /\
  MarkdownParser.convertMarkdownToText md_example =
    "Title" +:+ String ch_nl "bold and em and link and code" /\
  strip_header md_second_line_header = md_second_line_header /\
  MarkdownParser.convertMarkdownToText md_second_line_header =
    md_second_line_header.
Proof.
  split; [|split; [|split; [done|split; [by vm_compute|split; by vm_compute]]]].
  - intros md. unfold MarkdownParser.convertMarkdownToText.
    rewrite regex_replace_header.
    do 4 eexists.
    split; [apply (regex_replace_rewrites MarkdownParser.re_bold [Sub 1]);
            [reflexivity | apply finds_bold]|].
    split; [apply (regex_replace_rewrites MarkdownParser.re_italic [Sub 1]);
            [reflexivity | apply finds_italic]|].
    split; [apply (regex_replace_rewrites MarkdownParser.re_link [Sub 1]);
            [reflexivity | apply finds_link]|].
    split; [apply (regex_replace_rewrites MarkdownParser.re_fence []);
            [reflexivity | apply finds_fence]|].
    apply (regex_replace_rewrites MarkdownParser.re_code [Sub 1]);
      [reflexivity | apply finds_code].
  - intros s x rest.
    split; [apply bold_at_Some|]. split; [apply italic_at_Some|].
    split; [apply link_at_Some|]. split; [apply fence_at_Some|].
    apply code_at_Some.
Qed.

(** C7: for every input the plain-text parser returns the input as content,
    [encoding] is utf-8 and [lines] is the decimal rendering of the number
    of newline characters plus one; the empty input has 1 line and the
    input of a, newline, b, newline has 3. *)
Theorem TextParser_parse_lines :
  (forall (fs : filesystem) (filename input : string),
     fs filename = Some input ->
     exists doc,
       TextParser.parse fs filename = Ok doc /\
       content doc = input /\
       metadata doc !! "encoding" = Some "utf-8" /\
       metadata doc !! "lines" =
         Some (to_string
                 (Z.of_nat (length (filter (fun c => c = ch_nl) (chars input)))
                  + 1))) /\
  (forall doc,
     TextParser.parse (fun _ => Some EmptyString) "empty.txt" = Ok doc ->
     metadata doc !! "lines" = Some "1") /\
  (forall doc,
     TextParser.parse (fun _ => Some text_example) "ab.txt" = Ok doc ->
     metadata doc !! "lines" = Some "3").
Proof.
  split; [|split].
  - intros fs filename input Hfs. eexists. split.
    { unfold TextParser.parse, readFile. rewrite Hfs. reflexivity. }
    unfold TextParser.parse_content; simpl. split; [done|].
    rewrite lookup_insert_ne by done. rewrite !lookup_insert_eq.
    by rewrite count_filter.
  - by intros doc [= <-].
  - by intros doc [= <-].
Qed.

Lemma TextParser_parse_lines_witness :
  exists doc,
    TextParser.parse (fun _ => Some text_example) "ab.txt" = Ok doc /\
    content doc = text_example /\
    metadata doc !! "encoding" = Some "utf-8" /\
    metadata doc !! "lines" =
      Some (to_string
              (Z.of_nat
                 (length (filter (fun c => c = ch_nl) (chars text_example)))
               + 1)).
Proof.
  apply (proj1 TextParser_parse_lines (fun _ => Some text_example) "ab.txt").
  reflexivity.
Defined.

(** C8: a file name whose extension no parser recognises makes
    [parseDocument] throw the error that names the file; no document is
    returned. file.unknownext is such a name. *)
Theorem parseDocument_unsupported (fs : filesystem) (filename : string) :
  getFileExtension filename ∉
    ["txt"; "text"; "csv"; "json"; "xml"; "html"; "htm"; "md"; "markdown"] ->
  canParseFile filename = false /\
  parseDocument fs filename =
    Throw (runtime_error ("No suitable parser found for: " +:+ filename)) /\
  (forall doc, parseDocument fs filename <> Ok doc).
Proof.
  intros Hext.
  assert (Hnone : detect filename = None).
  { destruct (detect filename) as [p|] eqn:Hp; [|done].
    exfalso. apply Hext. apply detect_extensions in Hp. revert Hp.
    destruct p; simpl; rewrite !elem_of_cons; tauto. }
  assert (Hthrow : parseDocument fs filename =
            Throw (runtime_error ("No suitable parser found for: " +:+ filename))).
  { by rewrite parseDocument_detect, Hnone. }
  split; [|split; [done | by rewrite Hthrow]].
  destruct (canParseFile filename) eqn:Hcan; [|done].
  apply canParseFile_detect in Hcan as [p Hp]. congruence.
Qed.

Lemma parseDocument_unsupported_witness :
  canParseFile "file.unknownext" = false /\
  parseDocument (fun _ => Some "data") "file.unknownext" =
    Throw (runtime_error "No suitable parser found for: file.unknownext") /\
  (forall doc,
     parseDocument (fun _ => Some "data") "file.unknownext" <> Ok doc).
Proof.
  apply (parseDocument_unsupported (fun _ => Some "data") "file.unknownext").
  vm_compute. intros H.
  by repeat (apply elem_of_cons in H as [?|H]; [done|]); apply elem_of_nil in H.
Defined.

(** C9: when the extension is recognised, [parseDocument] returns the
    document of the selected parser with [parser] set to the display name
    of that parser and [filename] to the file name, everything else as the
    parser left it; and what the parser throws is thrown again inside an
    error that names the file. *)
Theorem parseDocument_stamps (fs : filesystem) (filename : string)
    (p : parser_class) :
  detect filename = Some p ->
  getFormatName p ∈ ["Plain Text"; "CSV"; "JSON"; "XML/HTML"; "Markdown"] /\
  (forall doc,
     parse p fs filename = Ok doc ->
     exists doc',
       parseDocument fs filename = Ok doc' /\
       content doc' = content doc /\
       format doc' = format doc /\
       pages doc' = pages doc /\
       metadata doc' !! "parser" = Some (getFormatName p) /\
       metadata doc' !! "filename" = Some filename /\
       (forall k, k <> "parser" -> k <> "filename" ->
                  metadata doc' !! k = metadata doc !! k)) /\
  (forall e,
     parse p fs filename = Throw e ->
     parseDocument fs filename =
       Throw (runtime_error
                ("Failed to parse " +:+ filename +:+ ": " +:+ what e))).
Proof.
  intros Hp. rewrite parseDocument_detect, Hp. simpl. split; [|split].
  - destruct p; simpl; rewrite !elem_of_cons; tauto.
  - intros doc ->. eexists. split; [reflexivity|]. simpl.
    split; [done|]. split; [done|]. split; [done|].
    split; [by rewrite lookup_insert_ne, lookup_insert_eq|].
    split; [by rewrite lookup_insert_eq|].
    intros k Hk1 Hk2. by rewrite !lookup_insert_ne.
  - by intros e ->.
Qed.

Lemma parseDocument_stamps_witness :
  detect "bad.json" = Some JSON /\
  parse JSON (fun _ => Some "}") "bad.json" =
    Throw (length_error "basic_string::_M_create") /\
  parseDocument (fun _ => Some "}") "bad.json" =
    Throw (runtime_error "Failed to parse bad.json: basic_string::_M_create").
Proof.
  split; [reflexivity|]. split; [reflexivity|].
  apply (proj2 (proj2 (parseDocument_stamps (fun _ => Some "}") "bad.json"
                         JSON eq_refl))
           (length_error "basic_string::_M_create")).
  reflexivity.
Defined.

(** C10: no field that [parseCSVLine] produces contains a double quote: a
    quote only toggles the quote state. So no field of a row and no
    character of the reformatted content is a quote, and a doubled quote
    inside a quoted field leaves nothing behind. *)
Theorem parseCSVLine_fields_quote_free :
  (forall line field : string,
     field ∈ CSVParser.parseCSVLine line -> ch_dquote ∉ chars field) /\
  (forall (input : string) (row : list string) (field : string),
     row ∈ CSVParser.parseCSV input -> field ∈ row ->
     ch_dquote ∉ chars field) /\
  (forall input : string,
     ch_dquote ∉ chars (content (CSVParser.parse_content input))) /\
  CSVParser.parseCSVLine
    (String ch_dquote ("a" +:+ String ch_dquote (String ch_dquote
       ("b" +:+ String ch_dquote EmptyString)))) = ["ab"].
Proof.
  assert (Hrows : forall input,
            Forall (Forall quote_free) (CSVParser.parseCSV input)).
  { intros input. unfold CSVParser.parseCSV. apply Forall_fmap, Forall_true.
    intros line. apply parseCSVLine_quote_free. }
  split; [|split; [|split]].
  - intros line field Hin.
    by eapply (proj1 (Forall_forall _ _) (parseCSVLine_quote_free line)).
  - intros input row field Hrow Hfield.
    pose proof (proj1 (Forall_forall _ _) (Hrows input) _ Hrow) as Hr.
    by eapply (proj1 (Forall_forall _ _) Hr).
  - intros input.
    change (content (CSVParser.parse_content input))
      with (CSVParser.format_rows (CSVParser.parseCSV input)).
    apply format_rows_quote_free, Hrows.
  - by vm_compute.
Qed.

Lemma parseCSVLine_fields_quote_free_witness :
  ch_dquote ∉ chars "c,d".
Proof.
  apply (proj1 parseCSVLine_fields_quote_free
           (String ch_dquote ("c,d" +:+ String ch_dquote EmptyString))).
  vm_compute. apply list_elem_of_here.
Defined.

(** * Further properties *)

(** ** File names *)

Section file_names.

Lemma tolower_dot (c : ascii) :
  Ascii.eqb (tolower c) "." = Ascii.eqb c ".".
Proof. destruct c as [[] [] [] [] [] [] [] []]; reflexivity. Qed.

Lemma tolower_idemp (c : ascii) : tolower (tolower c) = tolower c.
Proof. destruct c as [[] [] [] [] [] [] [] []]; reflexivity. Qed.

Lemma toLowerCase_idemp (s : string) :
  toLowerCase (toLowerCase s) = toLowerCase s.
Proof.
  induction s as [|c s IH]; simpl; [done|]. by rewrite tolower_idemp, IH.
Qed.

Lemma length_toLowerCase (s : string) :
  String.length (toLowerCase s) = String.length s.
Proof. induction s as [|c s IH]; simpl; [done | by rewrite IH]. Qed.

Lemma find_last_of_toLowerCase (s : string) :
  find_last_of "." (toLowerCase s) = find_last_of "." s.
Proof.
  induction s as [|c s IH]; simpl; [done|]. by rewrite IH, tolower_dot.
Qed.

Lemma substr_toLowerCase (n : nat) : forall s : string,
  substr n (toLowerCase s) = toLowerCase (substr n s).
Proof.
  induction n as [|n IH]; intros s; [done|].
  destruct s as [|c s]; simpl; [done | apply IH].
Qed.

Lemma getFileExtension_toLowerCase (filename : string) :
  getFileExtension (toLowerCase filename) = getFileExtension filename.
Proof.
  unfold getFileExtension. rewrite find_last_of_toLowerCase.
  destruct (find_last_of "." filename); [|done].
  by rewrite substr_toLowerCase, toLowerCase_idemp.
Qed.

(** What the registry does with a file name depends on its extension
    only. *)
Lemma detect_extension_eq (f1 f2 : string) :
  getFileExtension f1 = getFileExtension f2 -> detect f1 = detect f2.
Proof.
  intros Hext.
  destruct (detect f1) as [p|] eqn:H1.
  - apply detect_extensions in H1. rewrite Hext in H1.
    symmetry. by apply detect_extensions.
  - destruct (detect f2) as [q|] eqn:H2; [|done].
    apply detect_extensions in H2. rewrite <-Hext in H2.
    apply detect_extensions in H2. congruence.
Qed.

Lemma canParseFile_extension_eq (f1 f2 : string) :
  getFileExtension f1 = getFileExtension f2 ->
  canParseFile f1 = canParseFile f2.
Proof.
  intros H%detect_extension_eq.
  pose proof (canParseFile_detect f1) as H1.
  pose proof (canParseFile_detect f2) as H2. rewrite H in H1.
  destruct (canParseFile f1), (canParseFile f2); try done.
  - symmetry. apply H2, H1. done.
  - apply H1, H2. done.
Qed.

Lemma substr_after_last (ch : ascii) (s : string) : forall i,
  find_last_of ch s = Some i -> ch ∉ chars (substr (i + 1) s).
Proof.
  induction s as [|c s IH]; intros i; simpl; [done|].
  destruct (find_last_of ch s) as [j|] eqn:Hj.
  - intros [= <-]. simpl. by apply IH.
  - destruct (Ascii.eqb c ch); [|done]. intros [= <-]. simpl.
    clear IH. revert Hj. induction s as [|d s IH]; simpl.
    + intros _. by intros ?%elem_of_nil.
    + destruct (find_last_of ch s); [done|].
      destruct (Ascii.eqb_spec d ch); [done|]. intros _.
      rewrite not_elem_of_cons. split; [congruence | by apply IH].
Qed.

Lemma length_substr (n : nat) : forall s : string,
  String.length (substr n s) <= String.length s.
Proof.
  induction n as [|n IH]; intros s; [done|].
  destruct s as [|c s]; simpl; [done|]. specialize (IH s). lia.
Qed.

Lemma toLowerCase_dot_free (s : string) :
  "."%char ∉ chars s -> "."%char ∉ chars (toLowerCase s).
Proof.
  induction s as [|c s IH]; simpl; [done|].
  rewrite !not_elem_of_cons. intros [Hc Hs]. split; [|by apply IH].
  intros E. apply Hc. symmetry. apply Ascii.eqb_eq.
  rewrite <-tolower_dot. apply Ascii.eqb_eq. done.
Qed.

End file_names.

(** X1: when the extension is recognised and the file cannot be opened,
    [parseDocument] throws the error of [readFile] inside the error that
    names the file. *)
Theorem parseDocument_missing_file (fs : filesystem) (filename : string) :
  canParseFile filename = true ->
  fs filename = None ->
  parseDocument fs filename =
    Throw (runtime_error
             ("Failed to parse " +:+ filename +:+ ": Cannot open file: "
              +:+ filename)).
Proof.
  intros [p Hp]%canParseFile_detect Hfs.
  rewrite parseDocument_detect, Hp. unfold parseDocument_with.
  assert (parse p fs filename =
          Throw (runtime_error ("Cannot open file: " +:+ filename))) as ->.
  { destruct p; simpl;
      unfold TextParser.parse, CSVParser.parse, JSONParser.parse,
        XMLParser.parse, MarkdownParser.parse, readFile;
      by rewrite Hfs. }
  done.
Qed.

Lemma parseDocument_missing_file_witness :
  parseDocument (fun _ => None) "notes.txt" =
    Throw (runtime_error
             "Failed to parse notes.txt: Cannot open file: notes.txt").
Proof.
  apply (parseDocument_missing_file (fun _ => None) "notes.txt");
    reflexivity.
Defined.

(** X2: two file names that differ in the case of their letters only have
    the same extension, are handled by the same parser and are both
    supported or both not. *)
Theorem detect_case_insensitive (f1 f2 : string) :
  toLowerCase f1 = toLowerCase f2 ->
  getFileExtension f1 = getFileExtension f2 /\
  detect f1 = detect f2 /\
  canParseFile f1 = canParseFile f2.
Proof.
  intros H.
  assert (getFileExtension f1 = getFileExtension f2) as Hext.
  { by rewrite <-(getFileExtension_toLowerCase f1),
      <-(getFileExtension_toLowerCase f2), H. }
  split; [done|].
  split; [by apply detect_extension_eq | by apply canParseFile_extension_eq].
Qed.

Lemma detect_case_insensitive_witness :
  getFileExtension "Report.MD" = getFileExtension "REPORT.md" /\
  detect "Report.MD" = detect "REPORT.md" /\
  canParseFile "Report.MD" = canParseFile "REPORT.md".
Proof.
  apply (detect_case_insensitive "Report.MD" "REPORT.md"). reflexivity.
Defined.

(** X3: the extension of a file name has no dot in it, is in lower case
    and is shorter than the file name, or empty. *)
Theorem getFileExtension_shape (filename : string) :
  ("."%char ∉ chars (getFileExtension filename)) /\
  toLowerCase (getFileExtension filename) = getFileExtension filename /\
  (getFileExtension filename = EmptyString \/
   String.length (getFileExtension filename) < String.length filename).
Proof.
  unfold getFileExtension.
  destruct (find_last_of "." filename) as [dot|] eqn:Hdot.
  - split; [by apply toLowerCase_dot_free, substr_after_last|].
    split; [apply toLowerCase_idemp|]. right.
    rewrite length_toLowerCase. apply find_last_of_lt in Hdot.
    replace (dot + 1) with (S dot) by lia.
    destruct filename as [|c s]; simpl in *; [lia|].
    pose proof (length_substr dot s). lia.
  - split; [by intros ?%elem_of_nil|]. split; [done | by left].
Qed.

(** ** CSV *)

Section csv_more.

Implicit Types (s t line : string) (c : ascii).

Lemma remove_if_append p s t :
  remove_if p (s +:+ t) = remove_if p s +:+ remove_if p t.
Proof.
  induction s as [|c s IH]; simpl; [done|].
  destruct (p c); simpl; by rewrite IH.
Qed.

Lemma remove_if_absent c s :
  c ∉ chars s -> remove_if (fun d => Ascii.eqb d c) s = s.
Proof.
  induction s as [|d s IH]; simpl; [done|].
  rewrite not_elem_of_cons. intros [Hne Hs].
  destruct (Ascii.eqb_spec d c); [congruence | by rewrite IH].
Qed.

Lemma count_append c s t : (count c (s +:+ t) = count c s + count c t)%Z.
Proof. induction s as [|d s IH]; simpl; [done | rewrite IH; lia]. Qed.

Lemma count_absent c s : c ∉ chars s -> count c s = 0%Z.
Proof.
  induction s as [|d s IH]; simpl; [done|].
  rewrite not_elem_of_cons. intros [Hne Hs].
  destruct (Ascii.eqb_spec d c); [congruence | by rewrite IH].
Qed.

Lemma join_snoc sep (fields : list string) (field : string) :
  join sep (fields ++ [field]) =
  foldr (fun f out => f +:+ sep +:+ out) field fields.
Proof.
  induction fields as [|f fields IH]; [done|].
  change ((f :: fields) ++ [field]) with (f :: (fields ++ [field])).
  simpl. rewrite <-IH. by destruct (fields ++ [field]) eqn:E;
    [destruct fields; discriminate|].
Qed.

(** The loop of [parseCSVLine] drops the quotes and keeps the commas it
    does not split at. *)
Lemma parseCSVLine_loop_join line : forall fields field inQuotes,
  join "," (CSVParser.parseCSVLine_loop line fields field inQuotes) =
  foldr (fun f out => f +:+ "," +:+ out)
    (field +:+ remove_if is_dquote line) fields.
Proof.
  induction line as [|c line IH]; intros fields field inQuotes; simpl.
  - by rewrite join_snoc, append_nil_r.
  - unfold is_dquote at 1. destruct (Ascii.eqb c ch_dquote); [apply IH|].
    destruct (Ascii.eqb c "," && negb inQuotes) eqn:Hc.
    + apply andb_true_iff in Hc as [->%Ascii.eqb_eq _].
      rewrite IH, foldr_app. done.
    + rewrite IH. by rewrite push_back_append.
Qed.

Lemma parseCSVLine_join line :
  join "," (CSVParser.parseCSVLine line) = remove_if is_dquote line.
Proof. apply parseCSVLine_loop_join. Qed.

Lemma parseCSVLine_loop_length line : forall fields field inQuotes,
  length fields + 1 <=
  length (CSVParser.parseCSVLine_loop line fields field inQuotes).
Proof.
  induction line as [|c line IH]; intros fields field inQuotes; simpl.
  - rewrite length_app. simpl. lia.
  - destruct (Ascii.eqb c ch_dquote); [apply IH|].
    destruct (Ascii.eqb c "," && negb inQuotes); [|apply IH].
    specialize (IH (fields ++ [field]) EmptyString inQuotes).
    rewrite length_app in IH. simpl in IH. lia.
Qed.

Lemma parseCSVLine_loop_commas line : forall fields field,
  quote_free line ->
  Z.of_nat (length (CSVParser.parseCSVLine_loop line fields field false)) =
  (Z.of_nat (length fields) + 1 + count "," line)%Z.
Proof.
  induction line as [|c line IH]; intros fields field; simpl.
  - intros _. rewrite length_app. simpl. lia.
  - unfold quote_free. simpl. rewrite not_elem_of_cons. intros [Hc Hline].
    destruct (Ascii.eqb_spec c ch_dquote); [congruence|].
    rewrite andb_true_r. destruct (Ascii.eqb c ","); rewrite IH by done.
    + rewrite length_app. simpl. lia.
    + lia.
Qed.

(** The lines [getline] extracts, put together again. *)
Lemma getlines_unlines s : forall line got,
  (got = false -> line = EmptyString) ->
  unlines (CSVParser.getlines s line got) =
  line +:+ s +:+ (if unterminated got s then String ch_nl EmptyString
                  else EmptyString).
Proof.
  induction s as [|c s IH]; intros line got Hline; simpl.
  - destruct got; simpl; [done|]. by rewrite Hline.
  - destruct (Ascii.eqb_spec c ch_nl) as [->|Hc]; simpl.
    + by rewrite IH.
    + rewrite IH by done. by rewrite push_back_append.
Qed.

Lemma getlines_length s : forall line got,
  Z.of_nat (length (CSVParser.getlines s line got)) =
  (count ch_nl s + (if unterminated got s then 1 else 0))%Z.
Proof.
  induction s as [|c s IH]; intros line got; simpl.
  - by destruct got.
  - destruct (Ascii.eqb c ch_nl); simpl length; rewrite ?Nat2Z.inj_succ, IH;
      simpl; lia.
Qed.




(** No line [getline] extracts has a newline in it. *)
Lemma getlines_newline_free s : forall line got,
  ch_nl ∉ chars line ->
  Forall (fun l => ch_nl ∉ chars l) (CSVParser.getlines s line got).
Proof.
  induction s as [|c s IH]; intros line got Hline; simpl.
  - destruct got; [by apply Forall_singleton | done].
  - destruct (Ascii.eqb_spec c ch_nl) as [->|Hc].
    + apply Forall_cons; split; [done|]. apply IH. by intros ?%elem_of_nil.
    + apply IH. rewrite chars_push_back, elem_of_app.
      intros [?|?%list_elem_of_singleton]; [done | congruence].
Qed.

(** The fields of a line are made of characters of the line. *)
Lemma parseCSVLine_loop_chars c line : forall fields field inQuotes,
  c ∉ chars line -> Forall (fun f => c ∉ chars f) fields ->
  c ∉ chars field ->
  Forall (fun f => c ∉ chars f)
    (CSVParser.parseCSVLine_loop line fields field inQuotes).
Proof.
  induction line as [|d line IH]; intros fields field inQuotes; simpl.
  - intros _ Hfs Hf. apply Forall_app; split; [done | by apply Forall_singleton].
  - rewrite not_elem_of_cons. intros [Hd Hline] Hfs Hf.
    destruct (Ascii.eqb d ch_dquote); [by apply IH|].
    destruct (Ascii.eqb d "," && negb inQuotes).
    + apply IH; [done| |by intros ?%elem_of_nil].
      apply Forall_app; split; [done | by apply Forall_singleton].
    + apply IH; [done..|]. rewrite chars_push_back, elem_of_app.
      intros [?|?%list_elem_of_singleton]; [done | congruence].
Qed.

Lemma format_row_newlines row : forall i,
  Forall (fun f => ch_nl ∉ chars f) row ->
  count ch_nl (CSVParser.format_row i row) = 0%Z.
Proof.
  induction row as [|f row IH]; intros i Hrow; simpl; [done|].
  inversion Hrow; subst. rewrite !count_append, IH by done.
  rewrite (count_absent _ f) by done. by destruct (Nat.ltb 0 i).
Qed.

Lemma format_rows_newlines rows :
  Forall (Forall (fun f => ch_nl ∉ chars f)) rows ->
  count ch_nl (CSVParser.format_rows rows) = Z.of_nat (length rows).
Proof.
  induction rows as [|row rows IH]; intros Hrows; [done|].
  inversion Hrows; subst. simpl CSVParser.format_rows.
  rewrite count_append, format_row_newlines by done.
  simpl. rewrite IH by done. lia.
Qed.

Lemma parseCSV_newline_free content :
  Forall (Forall (fun f => ch_nl ∉ chars f)) (CSVParser.parseCSV content).
Proof.
  unfold CSVParser.parseCSV. apply Forall_fmap.
  eapply Forall_impl;
    [apply (getlines_newline_free content EmptyString false);
     by intros ?%elem_of_nil|].
  intros line Hline. simpl.
  apply parseCSVLine_loop_chars; [done.. | by intros ?%elem_of_nil].
Qed.

Lemma rejoin_rows (lines : list string) :
  foldr (fun row out => join "," row +:+ String ch_nl out) EmptyString
    (CSVParser.parseCSVLine <$> lines) =
  remove_if is_dquote (unlines lines).
Proof.
  induction lines as [|line lines IH]; [done|].
  rewrite fmap_cons. cbn [foldr unlines]. fold (unlines lines).
  rewrite IH, parseCSVLine_join, remove_if_append. done.
Qed.

End csv_more.

(** X4: the rows of a CSV content, each joined by commas and ended by a
    newline, give the content again without its double quotes, and with a
    newline after the last line: parsing loses the quotes and nothing
    else. So does one line. *)
Theorem parseCSV_rejoin :
  (forall line : string,
     join "," (CSVParser.parseCSVLine line) = remove_if is_dquote line) /\
  (forall content : string,
     foldr (fun row out => join "," row +:+ String ch_nl out) EmptyString
       (CSVParser.parseCSV content) =
     remove_if is_dquote
       (content +:+ (if unterminated false content
                     then String ch_nl EmptyString else EmptyString))) /\
  (forall line : string,
     ch_dquote ∉ chars line ->
     join "," (CSVParser.parseCSVLine line) = line).
Proof.
  split; [apply parseCSVLine_join|]. split.
  - intros content. unfold CSVParser.parseCSV.
    by rewrite rejoin_rows, getlines_unlines.
  - intros line Hline. rewrite parseCSVLine_join.
    by apply remove_if_absent.
Qed.

Lemma parseCSV_rejoin_witness :
  join "," (CSVParser.parseCSVLine "1,2,,3") = "1,2,,3".
Proof.
  apply (proj2 (proj2 parseCSV_rejoin) "1,2,,3").
  vm_compute. intros H.
  by repeat (apply elem_of_cons in H as [?|H]; [done|]); apply elem_of_nil in H.
Defined.

(** X5: there is a row for every newline of the content, and one more
    when the content ends in a line that no newline ends; [rows] is the
    decimal of that number. *)
Theorem parseCSV_row_count (content : string) :
  Z.of_nat (length (CSVParser.parseCSV content)) =
    (count ch_nl content + (if unterminated false content then 1 else 0))%Z /\
  metadata (CSVParser.parse_content content) !! "rows" =
    Some (to_string
            (count ch_nl content
             + (if unterminated false content then 1 else 0))).
Proof.
  assert (Z.of_nat (length (CSVParser.parseCSV content)) =
          (count ch_nl content
           + (if unterminated false content then 1 else 0))%Z) as Hlen.
  { unfold CSVParser.parseCSV. rewrite length_fmap. apply getlines_length. }
  split; [done|]. rewrite <-Hlen. unfold CSVParser.parse_content.
  destruct (CSVParser.parseCSV content); simpl.
  - by rewrite lookup_insert_eq.
  - by rewrite lookup_insert_ne, lookup_insert_eq.
Qed.

(** X6: a line always has one field at least, and a line without a double
    quote has one field more than it has commas. *)
Theorem parseCSVLine_field_count :
  (forall line : string, 1 <= length (CSVParser.parseCSVLine line)) /\
  (forall line : string,
     ch_dquote ∉ chars line ->
     Z.of_nat (length (CSVParser.parseCSVLine line)) =
       (count "," line + 1)%Z).
Proof.
  split.
  - intros line. apply (parseCSVLine_loop_length line [] EmptyString false).
  - intros line Hline. unfold CSVParser.parseCSVLine.
    rewrite parseCSVLine_loop_commas by done. simpl. lia.
Qed.

Lemma parseCSVLine_field_count_witness :
  Z.of_nat (length (CSVParser.parseCSVLine "a,,b,")) = (count "," "a,,b," + 1)%Z.
Proof.
  apply (proj2 parseCSVLine_field_count "a,,b,").
  vm_compute. intros H.
  by repeat (apply elem_of_cons in H as [?|H]; [done|]); apply elem_of_nil in H.
Defined.


(** X8: the content the CSV parser returns has one newline for each row:
    a field never holds a newline. *)
Theorem CSVParser_content_lines (input : string) :
  count ch_nl (content (CSVParser.parse_content input)) =
    Z.of_nat (length (CSVParser.parseCSV input)) /\
  (forall row field,
     row ∈ CSVParser.parseCSV input -> field ∈ row -> ch_nl ∉ chars field).
Proof.
  split.
  - change (content (CSVParser.parse_content input))
      with (CSVParser.format_rows (CSVParser.parseCSV input)).
    apply format_rows_newlines, parseCSV_newline_free.
  - intros row field Hrow Hfield.
    pose proof (proj1 (Forall_forall _ _) (parseCSV_newline_free input) _ Hrow)
      as Hr.
    by apply (proj1 (Forall_forall _ _) Hr).
Qed.

(** ** JSON *)

Section json_more.

Lemma int_wrap_small (z : Z) :
  (- 2 ^ 31 <= z < 2 ^ 31)%Z -> int_wrap z = z.
Proof. intros H. unfold int_wrap. rewrite Z.mod_small; lia. Qed.

Lemma string_fill_small (n : Z) (c : ascii) :
  (0 <= n < 2 ^ 31)%Z ->
  string_fill n c = Ok (replicate_char (Z.to_nat n) c).
Proof.
  intros H. unfold string_fill, to_size_t, string_max_size.
  rewrite Z.mod_small by lia.
  destruct (Z.ltb_spec (2 ^ 62 - 1) n); [lia | done].
Qed.

Lemma string_fill_spaces (n : Z) (pad : string) :
  string_fill n ch_space = Ok pad -> remove_if is_json_space pad = EmptyString.
Proof.
  unfold string_fill. destruct (_ <? _)%Z; [done|]. intros [= <-].
  induction (Z.to_nat (to_size_t n)) as [|k IH]; [done | apply IH].
Qed.

Lemma remove_if_push_back p s c :
  remove_if p (push_back s c) = remove_if p s +:+ remove_if p (String c EmptyString).
Proof. apply remove_if_append. Qed.

(** One iteration changes the result by the character read, up to
    whitespace. *)
Lemma formatJSON_step_text prev c st st' :
  JSONParser.formatJSON_step prev c st = Ok st' ->
  remove_if is_json_space (JSONParser.result_ st') =
  remove_if is_json_space (JSONParser.result_ st)
  +:+ remove_if is_json_space (String c EmptyString).
Proof.
  unfold JSONParser.formatJSON_step. fold (string_state (JSONParser.inString st) prev c).
  destruct (string_state _ prev c); cbn [negb].
  - intros [= <-]. apply remove_if_push_back.
  - destruct (Ascii.eqb c "{" || Ascii.eqb c "[") eqn:Hopen.
    { destruct (string_fill _ ch_space) as [pad|] eqn:Hpad; [|done].
      intros [= <-]. cbn [JSONParser.result_].
      rewrite remove_if_append, (string_fill_spaces _ _ Hpad), append_nil_r.
      rewrite !remove_if_push_back, append_assoc. f_equal.
      apply orb_true_iff in Hopen as [->%Ascii.eqb_eq | ->%Ascii.eqb_eq]; done. }
    destruct (Ascii.eqb c "}" || Ascii.eqb c "]") eqn:Hclose.
    { destruct (string_fill _ ch_space) as [pad|] eqn:Hpad; [|done].
      intros [= <-]. cbn [JSONParser.result_].
      rewrite remove_if_push_back, remove_if_append,
        (string_fill_spaces _ _ Hpad), append_nil_r, remove_if_push_back.
      by rewrite append_assoc. }
    destruct (Ascii.eqb_spec c ",") as [->|Hcomma].
    { destruct (string_fill _ ch_space) as [pad|] eqn:Hpad; [|done].
      intros [= <-]. cbn [JSONParser.result_].
      rewrite remove_if_append, (string_fill_spaces _ _ Hpad), append_nil_r.
      by rewrite !remove_if_push_back, append_assoc. }
    destruct (negb (Ascii.eqb c ch_space) && negb (Ascii.eqb c ch_tab)
              && negb (Ascii.eqb c ch_nl)) eqn:Hws.
    + intros [= <-]. apply remove_if_push_back.
    + intros [= <-]. cbn [JSONParser.result_ remove_if].
      unfold is_json_space.
      destruct (Ascii.eqb c ch_space), (Ascii.eqb c ch_tab),
        (Ascii.eqb c ch_nl); try done; by rewrite append_nil_r.
Qed.

Lemma formatJSON_loop_text json : forall prev st out,
  JSONParser.formatJSON_loop prev json st = Ok out ->
  remove_if is_json_space out =
  remove_if is_json_space (JSONParser.result_ st)
  +:+ remove_if is_json_space json.
Proof.
  induction json as [|c json IH]; intros prev st out; simpl.
  - intros [= <-]. by rewrite append_nil_r.
  - destruct (JSONParser.formatJSON_step prev c st) as [st'|] eqn:Hstep;
      [|done].
    intros H%IH. rewrite H, (formatJSON_step_text _ _ _ _ Hstep).
    rewrite append_assoc. f_equal.
    cbn [remove_if]. by destruct (is_json_space c).
Qed.

(** One iteration follows the depth of the brackets, and throws exactly
    when a bracket is closed that is not open. *)
Lemma formatJSON_step_depth prev c st depth :
  JSONParser.indent st = Z.of_nat depth ->
  (Z.of_nat depth < 2 ^ 30 - 1)%Z ->
  match depth_after depth (string_state (JSONParser.inString st) prev c) c with
  | None =>
      JSONParser.formatJSON_step prev c st =
      Throw (length_error "basic_string::_M_create")
  | Some depth' =>
      exists st',
        JSONParser.formatJSON_step prev c st = Ok st' /\
        JSONParser.inString st' = string_state (JSONParser.inString st) prev c /\
        JSONParser.indent st' = Z.of_nat depth'
  end.
Proof.
  intros Hindent Hdepth.
  unfold JSONParser.formatJSON_step, depth_after.
  fold (string_state (JSONParser.inString st) prev c).
  destruct (string_state _ prev c); cbn [negb]; [by eexists|].
  rewrite Hindent.
  destruct (Ascii.eqb c "{" || Ascii.eqb c "[").
  { rewrite (int_wrap_small (Z.of_nat depth + 1)) by lia.
    rewrite int_wrap_small, string_fill_small by lia.
    eexists. split; [reflexivity|]. split; [done|]. simpl. lia. }
  destruct (Ascii.eqb c "}" || Ascii.eqb c "]").
  { destruct depth as [|depth'].
    - by rewrite string_fill_negative.
    - rewrite (int_wrap_small (Z.of_nat (S depth') - 1)) by lia.
      rewrite int_wrap_small, string_fill_small by lia.
      eexists. split; [reflexivity|]. split; [done|]. simpl. lia. }
  destruct (Ascii.eqb c ",").
  { rewrite int_wrap_small, string_fill_small by lia. by eexists. }
  destruct (negb (Ascii.eqb c ch_space) && negb (Ascii.eqb c ch_tab)
            && negb (Ascii.eqb c ch_nl)); by eexists.
Qed.

Lemma depth_after_le depth inString c depth' :
  depth_after depth inString c = Some depth' -> depth' <= S depth.
Proof.
  unfold depth_after. destruct inString; [intros [= <-]; lia|].
  destruct (_ || _); [intros [= <-]; lia|].
  destruct (_ || _); [destruct depth; [done | intros [= <-]; lia]|].
  intros [= <-]; lia.
Qed.

Lemma formatJSON_loop_depth json : forall prev st depth,
  JSONParser.indent st = Z.of_nat depth ->
  (Z.of_nat depth + Z.of_nat (String.length json) < 2 ^ 30)%Z ->
  if closes_unopened depth (JSONParser.inString st) prev json
  then JSONParser.formatJSON_loop prev json st =
       Throw (length_error "basic_string::_M_create")
  else exists out, JSONParser.formatJSON_loop prev json st = Ok out.
Proof.
  induction json as [|c json IH]; intros prev st depth Hindent Hlen.
  - simpl. by eexists.
  - cbn [closes_unopened JSONParser.formatJSON_loop].
    pose proof (formatJSON_step_depth prev c st depth Hindent) as Hstep.
    simpl String.length in Hlen.
    destruct (depth_after depth _ c) as [depth'|] eqn:Hafter.
    + destruct Hstep as (st' & -> & HinS & Hind'); [lia|].
      apply depth_after_le in Hafter.
      specialize (IH (Some c) st' depth' Hind' ltac:(lia)).
      rewrite HinS in IH. apply IH.
    + by rewrite Hstep by lia.
Qed.

End json_more.

(** X9: on an input of less than [2 ^ 30] characters [formatJSON] fails
    exactly when the input closes, outside a string, a bracket that is not
    open, and then with [std::length_error]; brackets left open, commas
    and anything inside strings never make it fail. *)
Theorem formatJSON_fails_iff (json : string) :
  (Z.of_nat (String.length json) < 2 ^ 30)%Z ->
  (closes_unopened 0 false None json = true ->
   JSONParser.formatJSON json =
   Throw (length_error "basic_string::_M_create")) /\
  (closes_unopened 0 false None json = false ->
   exists out, JSONParser.formatJSON json = Ok out).
Proof.
  intros Hlen.
  pose proof (formatJSON_loop_depth json None
                (JSONParser.mkLocals EmptyString 0 false) 0 eq_refl
                ltac:(simpl; lia)) as H.
  simpl in H. unfold JSONParser.formatJSON.
  destruct (closes_unopened 0 false None json); split; done.
Qed.

Lemma formatJSON_fails_iff_witness :
  exists out, JSONParser.formatJSON "[[1, 2], {" = Ok out.
Proof.
  apply (formatJSON_fails_iff "[[1, 2], {"); [by vm_compute | reflexivity].
Defined.

(** X10: when [formatJSON] succeeds, its output and its input are the same
    text once spaces, tabs and newlines are taken out of both: the
    re-indentation adds and drops whitespace and nothing else. The size in
    the metadata is the length of the input. *)
Theorem formatJSON_changes_whitespace_only (json out : string) :
  JSONParser.formatJSON json = Ok out ->
  remove_if is_json_space out = remove_if is_json_space json /\
  exists doc,
    JSONParser.parse_content json = Ok doc /\
    content doc = out /\
    metadata doc !! "size" =
      Some (to_string (Z.of_nat (String.length json))).
Proof.
  intros H. split.
  - by apply formatJSON_loop_text in H.
  - unfold JSONParser.parse_content. rewrite H. simpl.
    eexists. split; [reflexivity|]. simpl. by rewrite lookup_insert_eq.
Qed.

Lemma formatJSON_changes_whitespace_only_witness :
  remove_if is_json_space "[
  1,
  {
    
  }
]" = remove_if is_json_space "[ 1 ,{}]" /\
  exists doc,
    JSONParser.parse_content "[ 1 ,{}]" = Ok doc /\
    content doc = "[
  1,
  {
    
  }
]" /\
    metadata doc !! "size" = Some (to_string (Z.of_nat (String.length "[ 1 ,{}]"))).
Proof.
  apply (formatJSON_changes_whitespace_only "[ 1 ,{}]"). by vm_compute.
Defined.

(** ** XML *)

Section xml_more.

Lemma extractTextFromXML_eq xml :
  XMLParser.extractTextFromXML xml =
  collapse_whitespace false (strip_tags false xml).
Proof.
  unfold XMLParser.extractTextFromXML.
  by rewrite regex_replace_multiSpace, scan_strip_tags.
Qed.

Lemma isspace_space : isspace ch_space = true.
Proof. reflexivity. Qed.

Lemma single_spaced_collapse s : forall b,
  single_spaced b (collapse_whitespace b s) = true.
Proof.
  induction s as [|c s IH]; intros b; simpl; [done|].
  destruct (isspace c) eqn:Hc.
  - destruct b; [apply IH|]. cbn [single_spaced].
    rewrite isspace_space, IH. reflexivity.
  - simpl. rewrite Hc. apply IH.
Qed.

Lemma collapse_single_spaced s : forall b,
  single_spaced b s = true -> collapse_whitespace b s = s.
Proof.
  induction s as [|c s IH]; intros b; simpl; [done|].
  destruct (isspace c) eqn:Hc.
  - intros [[->%Ascii.eqb_eq Hb%negb_true_iff]%andb_true_iff Hs]%andb_true_iff.
    subst b. by rewrite IH.
  - intros Hs. by rewrite IH.
Qed.

Lemma strip_tags_chars s : forall b c,
  c ∈ chars (strip_tags b s) ->
  c = ch_space \/ (c ∈ chars s /\ c <> "<"%char /\ c <> ">"%char).
Proof.
  induction s as [|d s IH]; intros b c; simpl; [by intros ?%elem_of_nil|].
  assert (Hgo : forall b', c ∈ chars (strip_tags b' s) ->
            c = ch_space \/
            (c ∈ d :: chars s /\ c <> "<"%char /\ c <> ">"%char)).
  { intros b' [->|(? & ? & ?)]%IH; [by left | right].
    split; [by apply list_elem_of_further | done]. }
  destruct (Ascii.eqb_spec d "<") as [->|Hlt]; [apply Hgo|].
  destruct (Ascii.eqb_spec d ">") as [->|Hgt].
  { simpl. intros [->|H]%elem_of_cons; [by left | by apply Hgo in H]. }
  destruct b; [apply Hgo|]. simpl.
  intros [->|H]%elem_of_cons; [|by apply Hgo in H].
  right. split; [apply list_elem_of_here | done].
Qed.

Lemma collapse_whitespace_chars s : forall b c,
  c ∈ chars (collapse_whitespace b s) -> c = ch_space \/ c ∈ chars s.
Proof.
  induction s as [|d s IH]; intros b c; simpl; [by intros ?%elem_of_nil|].
  assert (Hgo : forall b', c ∈ chars (collapse_whitespace b' s) ->
            c = ch_space \/ c ∈ d :: chars s).
  { intros b' [->|?]%IH; [by left | right]. by apply list_elem_of_further. }
  destruct (isspace d).
  - destruct b; [apply Hgo|]. simpl.
    intros [->|H]%elem_of_cons; [by left | by apply Hgo in H].
  - simpl. intros [->|H]%elem_of_cons; [|by apply Hgo in H].
    right. apply list_elem_of_here.
Qed.

Lemma strip_tags_plain s :
  ("<"%char ∉ chars s) -> (">"%char ∉ chars s) -> strip_tags false s = s.
Proof.
  induction s as [|c s IH]; simpl; [done|].
  rewrite !not_elem_of_cons. intros [Hlt Hs1] [Hgt Hs2].
  destruct (Ascii.eqb_spec c "<") as [->|_]; [done|].
  destruct (Ascii.eqb_spec c ">") as [->|_]; [done|].
  by rewrite IH.
Qed.

Lemma length_strip_tags s : forall b,
  String.length (strip_tags b s) <= String.length s.
Proof.
  induction s as [|c s IH]; intros b; simpl; [done|].
  pose proof (IH true). pose proof (IH false).
  destruct (Ascii.eqb c "<"); [lia|].
  destruct (Ascii.eqb c ">"); [simpl; lia|].
  destruct b; simpl; lia.
Qed.

Lemma length_collapse_whitespace s : forall b,
  String.length (collapse_whitespace b s) <= String.length s.
Proof.
  induction s as [|c s IH]; intros b; simpl; [done|].
  pose proof (IH true). pose proof (IH false).
  destruct (isspace c); [destruct b|]; simpl; lia.
Qed.

Lemma extractTextFromXML_chars xml c :
  c ∈ chars (XMLParser.extractTextFromXML xml) ->
  c = ch_space \/ (c ∈ chars xml /\ c <> "<"%char /\ c <> ">"%char).
Proof.
  rewrite extractTextFromXML_eq.
  intros [->|H]%collapse_whitespace_chars; [by left|].
  by apply strip_tags_chars in H.
Qed.

End xml_more.

(** X11: the text [extractTextFromXML] returns, for every input: it has no
    angle bracket; each of its characters is a space or a character of
    the input; its only whitespace is single spaces, with no whitespace
    next to another; and it is not longer than the input. *)
Theorem extractTextFromXML_output (xml : string) :
  let out := XMLParser.extractTextFromXML xml in
  ("<"%char ∉ chars out) /\ (">"%char ∉ chars out) /\
  (forall c, c ∈ chars out -> c = ch_space \/ c ∈ chars xml) /\
  single_spaced false out = true /\
  String.length out <= String.length xml.
Proof.
  intros out. unfold out.
  split; [|split; [|split; [|split]]].
  - by intros [?|(_ & ? & _)]%extractTextFromXML_chars.
  - by intros [?|(_ & _ & ?)]%extractTextFromXML_chars.
  - intros c [->|(? & _)]%extractTextFromXML_chars; [by left | by right].
  - rewrite extractTextFromXML_eq. apply single_spaced_collapse.
  - rewrite extractTextFromXML_eq.
    pose proof (length_collapse_whitespace (strip_tags false xml) false).
    pose proof (length_strip_tags xml false). lia.
Qed.

(** X12: a text with no angle bracket whose only whitespace is single
    spaces comes out of [extractTextFromXML] unchanged; so the function
    applied to its own output changes nothing. *)
Theorem extractTextFromXML_plain_text :
  (forall s : string,
     ("<"%char ∉ chars s) -> (">"%char ∉ chars s) ->
     single_spaced false s = true ->
     XMLParser.extractTextFromXML s = s) /\
  (forall xml : string,
     XMLParser.extractTextFromXML (XMLParser.extractTextFromXML xml) =
     XMLParser.extractTextFromXML xml).
Proof.
  assert (H : forall s : string,
            ("<"%char ∉ chars s) -> (">"%char ∉ chars s) ->
            single_spaced false s = true ->
            XMLParser.extractTextFromXML s = s).
  { intros s Hlt Hgt Hs.
    by rewrite extractTextFromXML_eq, strip_tags_plain, collapse_single_spaced. }
  split; [done|]. intros xml. apply H.
  - by intros [?|(_ & ? & _)]%extractTextFromXML_chars.
  - by intros [?|(_ & _ & ?)]%extractTextFromXML_chars.
  - rewrite extractTextFromXML_eq. apply single_spaced_collapse.
Qed.

(** ** Markdown *)

Section markdown_more.

Implicit Types (occ : string -> option (string * string)) (s t : string).

Lemma length_chars s : length (chars s) = String.length s.
Proof. induction s as [|c s IH]; simpl; [done | by rewrite IH]. Qed.

Lemma rewrites_sublist occ s t :
  only_deletes occ -> rewrites occ s t -> chars t `sublist_of` chars s.
Proof.
  intros Hocc. induction 1 as [_|s out rest t Hs _ IH|c s t _ _ IH].
  - done.
  - apply Hocc in Hs as (before & after & ->).
    rewrite !chars_append. apply sublist_inserts_l.
    apply sublist_app; [done|]. by apply sublist_inserts_l.
  - simpl. by apply sublist_skip.
Qed.

Lemma rewrites_unchanged occ s :
  (forall pre suf, s = pre +:+ suf -> occ suf = None) -> rewrites occ s s.
Proof.
  induction s as [|c s IH]; intros Hnone.
  - constructor. by apply (Hnone EmptyString).
  - apply rewrites_copy; [by apply (Hnone EmptyString)|].
    apply IH. intros pre suf ->. by apply (Hnone (String c pre)).
Qed.

Lemma regex_replace_unchanged r fmt occ s :
  bol_free r = true -> finds r fmt occ ->
  (forall pre suf, s = pre +:+ suf -> occ suf = None) ->
  regex_replace s r fmt = s.
Proof.
  intros Hr Hfinds Hnone.
  apply (rewrites_functional occ s);
    [by apply regex_replace_rewrites | by apply rewrites_unchanged].
Qed.

Lemma regex_replace_sublist r fmt occ s :
  bol_free r = true -> finds r fmt occ -> only_deletes occ ->
  chars (regex_replace s r fmt) `sublist_of` chars s.
Proof.
  intros Hr Hfinds Hocc.
  by apply (rewrites_sublist occ), regex_replace_rewrites.
Qed.

Lemma not_in_suffix c s pre suf :
  c ∉ chars s -> s = pre +:+ suf -> c ∉ chars suf.
Proof. intros Hc ->. rewrite chars_append, not_elem_of_app in Hc. tauto. Qed.

Lemma bold_at_none s : ("*"%char ∉ chars s) -> bold_at s = None.
Proof.
  intros Hs. destruct (bold_at s) as [[x rest]|] eqn:H; [|done].
  apply bold_at_Some in H as [-> _]. destruct Hs. apply list_elem_of_here.
Qed.

Lemma italic_at_none s : ("*"%char ∉ chars s) -> italic_at s = None.
Proof.
  intros Hs. destruct (italic_at s) as [[x rest]|] eqn:H; [|done].
  apply italic_at_Some in H as [-> _]. destruct Hs. apply list_elem_of_here.
Qed.

Lemma link_at_none s : ("["%char ∉ chars s) -> link_at s = None.
Proof.
  intros Hs. destruct (link_at s) as [[x rest]|] eqn:H; [|done].
  apply link_at_Some in H as (y & -> & _). destruct Hs.
  apply list_elem_of_here.
Qed.

Lemma fence_at_none s : ("`"%char ∉ chars s) -> fence_at s = None.
Proof.
  intros Hs. destruct (fence_at s) as [[x rest]|] eqn:H; [|done].
  apply fence_at_Some in H as (_ & body & -> & _). destruct Hs.
  apply list_elem_of_here.
Qed.

Lemma code_at_none s : ("`"%char ∉ chars s) -> code_at s = None.
Proof.
  intros Hs. destruct (code_at s) as [[x rest]|] eqn:H; [|done].
  apply code_at_Some in H as [-> _]. destruct Hs. apply list_elem_of_here.
Qed.

Lemma bold_at_deletes : only_deletes bold_at.
Proof.
  intros s out rest [-> _]%bold_at_Some. by exists "**", "**".
Qed.

Lemma italic_at_deletes : only_deletes italic_at.
Proof.
  intros s out rest [-> _]%italic_at_Some. by exists "*", "*".
Qed.

Lemma link_at_deletes : only_deletes link_at.
Proof.
  intros s out rest (y & -> & _)%link_at_Some.
  exists "[", ("](" +:+ y +:+ ")"). by rewrite !append_assoc.
Qed.

Lemma fence_at_deletes : only_deletes fence_at.
Proof.
  intros s out rest (-> & body & -> & _)%fence_at_Some.
  exists ("```" +:+ body +:+ "```"), EmptyString. by rewrite !append_assoc.
Qed.

Lemma code_at_deletes : only_deletes code_at.
Proof.
  intros s out rest [-> _]%code_at_Some. by exists "`", "`".
Qed.

Lemma drop_while_sublist p s : chars (drop_while p s) `sublist_of` chars s.
Proof.
  induction s as [|c s IH]; simpl; [done|].
  destruct (p c); [by apply sublist_cons | done].
Qed.

Lemma strip_header_sublist md : chars (strip_header md) `sublist_of` chars md.
Proof.
  unfold strip_header. destruct md as [|c md]; [done|].
  destruct (is_hash c); [|done].
  etrans; apply drop_while_sublist.
Qed.

Lemma strip_header_no_hash md :
  (forall rest, md <> String "#" rest) -> strip_header md = md.
Proof.
  intros Hmd. unfold strip_header. destruct md as [|c md]; [done|].
  unfold is_hash. destruct (Ascii.eqb_spec c "#") as [->|_]; [|done].
  by destruct (Hmd md).
Qed.

End markdown_more.

(** X13: a Markdown content that does not begin with [#] and has no
    asterisk, no opening square bracket and no backquote comes out of
    [convertMarkdownToText] unchanged: none of the six substitutions
    touches it, whatever else it contains. *)
Theorem convertMarkdownToText_plain_text (md : string) :
  (forall rest, md <> String "#" rest) ->
  ("*"%char ∉ chars md) -> ("["%char ∉ chars md) -> ("`"%char ∉ chars md) ->
  MarkdownParser.convertMarkdownToText md = md /\
  content (MarkdownParser.parse_content md) = md.
Proof.
  intros Hhash Hstar Hbracket Hquote.
  assert (H : MarkdownParser.convertMarkdownToText md = md); [|done].
  unfold MarkdownParser.convertMarkdownToText.
  rewrite regex_replace_header, strip_header_no_hash by done.
  rewrite (regex_replace_unchanged MarkdownParser.re_bold [Sub 1] bold_at);
    [|reflexivity | apply finds_bold
     |intros pre suf Hs; eapply bold_at_none, not_in_suffix; eauto].
  rewrite (regex_replace_unchanged MarkdownParser.re_italic [Sub 1] italic_at);
    [|reflexivity | apply finds_italic
     |intros pre suf Hs; eapply italic_at_none, not_in_suffix; eauto].
  rewrite (regex_replace_unchanged MarkdownParser.re_link [Sub 1] link_at);
    [|reflexivity | apply finds_link
     |intros pre suf Hs; eapply link_at_none, not_in_suffix; eauto].
  rewrite (regex_replace_unchanged MarkdownParser.re_fence [] fence_at);
    [|reflexivity | apply finds_fence
     |intros pre suf Hs; eapply fence_at_none, not_in_suffix; eauto].
  apply (regex_replace_unchanged MarkdownParser.re_code [Sub 1] code_at);
    [reflexivity | apply finds_code
    |intros pre suf Hs; eapply code_at_none, not_in_suffix; eauto].
Qed.

Lemma convertMarkdownToText_plain_text_witness :
  MarkdownParser.convertMarkdownToText "Costs (in $): 3 # 4 _ok_" =
    "Costs (in $): 3 # 4 _ok_" /\
  content (MarkdownParser.parse_content "Costs (in $): 3 # 4 _ok_") =
    "Costs (in $): 3 # 4 _ok_".
Proof.
  apply (convertMarkdownToText_plain_text "Costs (in $): 3 # 4 _ok_");
    [done | | |];
    vm_compute; intros H;
    repeat (apply elem_of_cons in H as [?|H]; [done|]);
    by apply elem_of_nil in H.
Defined.

(** X14: [convertMarkdownToText] only deletes: the characters of its
    output are characters of the input, in the same order, so the output
    is never longer than the input and no substitution puts in a
    character of its own. *)
Theorem convertMarkdownToText_only_deletes (md : string) :
  chars (MarkdownParser.convertMarkdownToText md) `sublist_of` chars md /\
  String.length (MarkdownParser.convertMarkdownToText md) <= String.length md.
Proof.
  assert (H : chars (MarkdownParser.convertMarkdownToText md)
                `sublist_of` chars md).
  { unfold MarkdownParser.convertMarkdownToText.
    rewrite regex_replace_header.
    etrans; [apply (regex_replace_sublist _ _ code_at);
             [reflexivity | apply finds_code | apply code_at_deletes]|].
    etrans; [apply (regex_replace_sublist _ _ fence_at);
             [reflexivity | apply finds_fence | apply fence_at_deletes]|].
    etrans; [apply (regex_replace_sublist _ _ link_at);
             [reflexivity | apply finds_link | apply link_at_deletes]|].
    etrans; [apply (regex_replace_sublist _ _ italic_at);
             [reflexivity | apply finds_italic | apply italic_at_deletes]|].
    etrans; [apply (regex_replace_sublist _ _ bold_at);
             [reflexivity | apply finds_bold | apply bold_at_deletes]|].
    apply strip_header_sublist. }
  split; [done|]. apply sublist_length in H. by rewrite !length_chars in H.
Qed.

(** ** The registry *)

Section registry_more.



End registry_more.




Section registration_order.

Lemma head_filter_canParse ps filename :
  (forall p, p ∈ ps) ->
  head (filter (fun p => canParse p filename = true) ps) = detect filename.
Proof.
  intros Hps. unfold detect. apply option_eq. intros p.
  assert (Huniq : forall q q',
            canParse q filename = true -> canParse q' filename = true ->
            q = q').
  { intros q q'. rewrite !canParse_extensions. apply extensions_disjoint. }
  rewrite !head_filter_unique by done.
  pose proof (Hps p). pose proof (elem_of_parsers p). tauto.
Qed.

End registration_order.

(** X17: no parser shadows another. The extensions of the five parsers
    are disjoint, so the order in which the constructor registers them
    does not matter: with the parsers in any other order [parseDocument]
    and [canParseFile] give the same result for every file. *)
Theorem parseDocument_order_independent (ps : list parser_class)
    (fs : filesystem) (filename : string) :
  ps ≡ₚ parsers ->
  parseDocument_loop ps fs filename = parseDocument fs filename /\
  canParseFile_loop ps filename = canParseFile filename.
Proof.
  intros Hps.
  assert (Hall : forall p, p ∈ ps).
  { intros p. rewrite Hps. apply elem_of_parsers. }
  split.
  - by rewrite parseDocument_loop_filter, parseDocument_detect,
      head_filter_canParse.
  - apply Bool.eq_iff_eq_true.
    by rewrite canParseFile_loop_filter, canParseFile_detect,
      head_filter_canParse.
Qed.

Lemma parseDocument_order_independent_witness :
  parseDocument_loop [Markdown; XML; JSON; CSV; Text]
    (fun _ => Some "a,b") "t.csv" =
  parseDocument (fun _ => Some "a,b") "t.csv" /\
  canParseFile_loop [Markdown; XML; JSON; CSV; Text] "t.csv" =
  canParseFile "t.csv".
Proof.
  apply (parseDocument_order_independent [Markdown; XML; JSON; CSV; Text]).
  apply (reverse_Permutation parsers).
Defined.
